(** * seqtrace: the pairwise aligner of [seqtrace/core/align/pyalign.py]

    A shallow embedding of the class [PairwiseAlignment] (a Needleman-Wunsch
    global aligner with free end gaps) and the properties of its
    [doAlignment] method.

    Python values are modelled as follows.
    - [str] is [string]; indexing goes through its list of characters.
    - A Python list is a [list]; [l[i]] and [l[i] = x] raise [IndexError]
      out of range.  Counters of a [for ... in range(1, k+1)] loop are
      naturals (they are at least 1, so [i-1] is exact); the counters of the
      traceback [while] loop are decremented freely and are integers, read
      with Python's negative-index rule.
    - A [dict] literal is the association list of its items, in source
      order; a missing key raises [KeyError].
    - A method that may raise returns an [outcome]. *)

From Stdlib Require Import ZArith Ascii String Lia.
From stdpp Require Import base list strings.

Local Open Scope Z_scope.

(** ** Exceptions and the error monad *)

Inductive exn : Type := KeyError | IndexError.

Inductive outcome (A : Type) : Type :=
| Ok (a : A)
| Raise (e : exn)
| OutOfFuel.

Arguments Ok {A} a.
Arguments Raise {A} e.
Arguments OutOfFuel {A}.

Definition bind {A B : Type} (m : outcome A) (k : A → outcome B) : outcome B :=
  match m with
  | Ok a => k a
  | Raise e => Raise e
  | OutOfFuel => OutOfFuel
  end.

Notation "'let*' x ':=' m 'in' k" := (bind m (fun x => k))
  (at level 10, x name, m at level 100, k at level 200).
Notation "'let*' ( x , y ) ':=' m 'in' k" :=
  (bind m (fun p => let '(x, y) := p in k))
  (at level 10, x name, y name, m at level 100, k at level 200).
Notation "'let*' ( x , y , z ) ':=' m 'in' k" :=
  (bind m (fun p => let '(x, y, z) := p in k))
  (at level 10, x name, y name, z name, m at level 100, k at level 200).
Notation "'let*' ( x , y , z , w ) ':=' m 'in' k" :=
  (bind m (fun p => let '(x, y, z, w) := p in k))
  (at level 10, x name, y name, z name, w name, m at level 100, k at level 200).

(** [for x in l: s = body(x, s)] *)
Fixpoint for_each {A S : Type} (l : list A) (body : A → S → outcome S) (s : S)
  : outcome S :=
  match l with
  | [] => Ok s
  | x :: l' => let* s' := body x s in for_each l' body s'
  end.

(** ** Python lists, grids and strings *)

(** [l[i]] for a counter [i >= 0]. *)
Definition getitem {A : Type} (l : list A) (i : nat) : outcome A :=
  match l !! i with
  | Some x => Ok x
  | None => Raise IndexError
  end.

(** [l[i] = x] for a counter [i >= 0]. *)
Definition setitem {A : Type} (l : list A) (i : nat) (x : A) : outcome (list A) :=
  if (i <? length l)%nat then Ok (<[i:=x]> l) else Raise IndexError.

(** The position that Python reads for the integer index [i] of a sequence
    of length [len]: negative indices count from the end. *)
Definition py_index (len : nat) (i : Z) : outcome nat :=
  if 0 <=? i then
    if i <? Z.of_nat len then Ok (Z.to_nat i) else Raise IndexError
  else
    if - Z.of_nat len <=? i then Ok (Z.to_nat (Z.of_nat len + i))
    else Raise IndexError.

(** [l[i]] for an integer [i]. *)
Definition getitemZ {A : Type} (l : list A) (i : Z) : outcome A :=
  let* k := py_index (length l) i in getitem l k.

(** [g[i][j]] *)
Definition grid_get {A : Type} (g : list (list A)) (i j : nat) : outcome A :=
  let* r := getitem g i in getitem r j.

(** [g[i][j] = x]: the row object [g[i]] is updated in place. *)
Definition grid_set {A : Type} (g : list (list A)) (i j : nat) (x : A)
  : outcome (list (list A)) :=
  let* r := getitem g i in
  let* r' := setitem r j x in
  Ok (<[i:=r']> g).

Definition grid_getZ {A : Type} (g : list (list A)) (i j : Z) : outcome A :=
  let* r := getitemZ g i in getitemZ r j.

(** [[ [x for i in range(cols)] for j in range(rows) ]] *)
Definition grid_new {A : Type} (rows cols : nat) (x : A) : list (list A) :=
  replicate rows (replicate cols x).

Definition str_getitem (s : string) (i : nat) : outcome ascii :=
  getitem (list_ascii_of_string s) i.

Definition str_getitemZ (s : string) (i : Z) : outcome ascii :=
  getitemZ (list_ascii_of_string s) i.

Definition len (s : string) : nat := length (list_ascii_of_string s).

(** [''.join(cs)] for a list of one-character strings. *)
Definition join (cs : list ascii) : string := string_of_list_ascii cs.

(** [d[k]] *)
Fixpoint dict_get {V : Type} (d : list (ascii * V)) (k : ascii) : outcome V :=
  match d with
  | [] => Raise KeyError
  | (k', v) :: d' => if Ascii.eqb k' k then Ok v else dict_get d' k
  end.

(** ** The substitution score table *)

Definition alphabet : list ascii :=
  ["A"; "T"; "G"; "C"; "W"; "S"; "M"; "K"; "R"; "Y"; "B"; "D"; "H"; "V"; "N"]%char.

(** One inner dictionary: its keys are written in the order of [alphabet]
    on every line of the source. *)
Definition row (vs : list Z) : list (ascii * Z) := zip alphabet vs.

Definition svals : list (ascii * list (ascii * Z)) :=
  zip alphabet [
    row [ 6; -6; -6; -6;  0; -6;  0; -6;  0; -6; -6; -2; -2; -2; -3];  (* A *)
    row [-6;  6; -6; -6;  0; -6; -6;  0; -6;  0; -2; -2; -2; -6; -3];  (* T *)
    row [-6; -6;  6; -6; -6;  0; -6;  0;  0; -6; -2; -2; -6; -2; -3];  (* G *)
    row [-6; -6; -6;  6; -6;  0;  0; -6; -6;  0; -2; -6; -2; -2; -3];  (* C *)
    row [ 0;  0; -6; -6;  0; -6; -3; -3; -3; -3; -4; -2; -2; -4; -3];  (* W *)
    row [-6; -6;  0;  0; -6;  0; -3; -3; -3; -3; -2; -4; -4; -2; -3];  (* S *)
    row [ 0; -6; -6;  0; -3; -3;  0; -6; -3; -3; -4; -4; -2; -2; -3];  (* M *)
    row [-6;  0;  0; -6; -3; -3; -6;  0; -3; -3; -2; -2; -4; -4; -3];  (* K *)
    row [ 0; -6;  0; -6; -3; -3; -3; -3;  0; -6; -4; -2; -4; -2; -3];  (* R *)
    row [-6;  0; -6;  0; -3; -3; -3; -3; -6;  0; -2; -4; -2; -4; -3];  (* Y *)
    row [-6; -2; -2; -2; -4; -2; -4; -2; -4; -2; -2; -3; -3; -3; -3];  (* B *)
    row [-2; -2; -2; -6; -2; -4; -4; -2; -2; -4; -3; -2; -3; -3; -3];  (* D *)
    row [-2; -2; -6; -2; -2; -4; -2; -4; -4; -2; -3; -3; -2; -3; -3];  (* H *)
    row [-2; -6; -2; -2; -4; -2; -2; -4; -2; -4; -3; -3; -3; -2; -3];  (* V *)
    row [-3; -3; -3; -3; -3; -3; -3; -3; -3; -3; -3; -3; -3; -3; -3]   (* N *)
  ].

(** [c] is a key of the score table. *)
Definition is_key (c : ascii) : bool :=
  match dict_get svals c with Ok _ => true | _ => false end.

(** ** The aligner object *)

Record PairwiseAlignment : Type := mkPairwiseAlignment {
  gapp : Z;
  seq1 : string;
  seq2 : string;
  seq1aligned : string;
  seq2aligned : string;
  seq1indexed : list Z;
  seq2indexed : list Z;
  score : Z
}.

(** [__init__]; the table [svals] is never reassigned and is the constant
    above. *)
Definition init : PairwiseAlignment := {|
  gapp := -6;
  seq1 := EmptyString; seq2 := EmptyString;
  seq1aligned := EmptyString; seq2aligned := EmptyString;
  seq1indexed := []; seq2indexed := [];
  score := 0
|}.

Definition setGapPenalty (self : PairwiseAlignment) (gap_penalty : Z)
  : PairwiseAlignment :=
  {| gapp := gap_penalty;
     seq1 := seq1 self; seq2 := seq2 self;
     seq1aligned := seq1aligned self; seq2aligned := seq2aligned self;
     seq1indexed := seq1indexed self; seq2indexed := seq2indexed self;
     score := score self |}.

Definition getGapPenalty (self : PairwiseAlignment) : Z := gapp self.

Definition setSequences (self : PairwiseAlignment) (sequence1 sequence2 : string)
  : PairwiseAlignment :=
  {| gapp := gapp self;
     seq1 := sequence1; seq2 := sequence2;
     seq1aligned := seq1aligned self; seq2aligned := seq2aligned self;
     seq1indexed := seq1indexed self; seq2indexed := seq2indexed self;
     score := score self |}.

Definition getSequences (self : PairwiseAlignment) : string * string :=
  (seq1 self, seq2 self).

Definition getAlignedSequences (self : PairwiseAlignment) : string * string :=
  (seq1aligned self, seq2aligned self).

Definition getAlignedSeqIndexes (self : PairwiseAlignment) : list Z * list Z :=
  (seq1indexed self, seq2indexed self).

Definition getAlignmentScore (self : PairwiseAlignment) : Z := score self.

(** ** [doAlignment] *)

(** A cell of the traceback matrix: the initial integer [0], or one of the
    characters ['d'], ['u'], ['l']. *)
Inductive tbval : Type := T0 | Td | Tu | Tl.

Definition tb_eqb (a b : tbval) : bool :=
  match a, b with
  | T0, T0 | Td, Td | Tu, Tu | Tl, Tl => true
  | _, _ => false
  end.

(** The two border loops that initialise the traceback matrix. *)
Definition init_tracebk (seq1len seq2len : nat) : outcome (list (list tbval)) :=
  let tracebk := grid_new (S seq1len) (S seq2len) T0 in
  let* tracebk :=
    for_each (seq 1 seq1len) (fun i tracebk => grid_set tracebk i 0%nat Tl) tracebk in
  for_each (seq 1 seq2len) (fun j tracebk => grid_set tracebk 0%nat j Tu) tracebk.

(** The three subscores of cell [(i, j)], after the end-gap adjustment:
    [(sdiag, sup, sleft)]. *)
Definition candidates (self : PairwiseAlignment) (scores : list (list Z))
    (i j : nat) : outcome (Z * Z * Z) :=
  let seq1len := len (seq1 self) in
  let seq2len := len (seq2 self) in
  let* d := grid_get scores (i - 1) (j - 1) in
  let* c1 := str_getitem (seq1 self) (i - 1) in
  let* r := dict_get svals c1 in
  let* c2 := str_getitem (seq2 self) (j - 1) in
  let* s := dict_get r c2 in
  let sdiag := d + s in
  let* u := grid_get scores i (j - 1) in
  let sup := u + gapp self in
  let* l := grid_get scores (i - 1) j in
  let sleft := l + gapp self in
  let sleft := if (j =? seq2len)%nat then sleft - gapp self else sleft in
  let sup := if (i =? seq1len)%nat then sup - gapp self else sup in
  Ok (sdiag, sup, sleft).

(** The branch that records the maximum subscore and its direction. *)
Definition choose (sdiag sup sleft : Z) : tbval * Z :=
  if (sdiag >=? sup) && (sdiag >=? sleft) then (Td, sdiag)
  else if (sup >=? sdiag) && (sup >=? sleft) then (Tu, sup)
  else (Tl, sleft).

(** The body of the inner fill loop. *)
Definition fill_cell (self : PairwiseAlignment) (i j : nat)
    (st : list (list Z) * list (list tbval))
  : outcome (list (list Z) * list (list tbval)) :=
  let '(scores, tracebk) := st in
  let* (sdiag, sup, sleft) := candidates self scores i j in
  let '(dir, best) := choose sdiag sup sleft in
  let* tracebk := grid_set tracebk i j dir in
  let* scores := grid_set scores i j best in
  Ok (scores, tracebk).

(** The nested fill loops. *)
Definition fill (self : PairwiseAlignment)
    (st : list (list Z) * list (list tbval))
  : outcome (list (list Z) * list (list tbval)) :=
  for_each (seq 1 (len (seq1 self)))
    (fun i st => for_each (seq 1 (len (seq2 self))) (fun j st => fill_cell self i j st) st)
    st.

(** The accumulators of the traceback: [(seq1a, seq2a, seq1aindex, seq2aindex)]. *)
Definition tb_acc : Type := list ascii * list ascii * list Z * list Z.

(** The traceback [while] loop; [fuel] bounds the number of iterations. *)
Fixpoint traceback (fuel : nat) (self : PairwiseAlignment)
    (tracebk : list (list tbval)) (i j : Z) (acc : tb_acc) : outcome tb_acc :=
  if (0 <? i) || (0 <? j) then
    match fuel with
    | O => OutOfFuel
    | S fuel' =>
      let '(seq1a, seq2a, seq1aindex, seq2aindex) := acc in
      let* t := grid_getZ tracebk i j in
      if tb_eqb t Td then
        let* c1 := str_getitemZ (seq1 self) (i - 1) in
        let* c2 := str_getitemZ (seq2 self) (j - 1) in
        traceback fuel' self tracebk (i - 1) (j - 1)
          (seq1a ++ [c1], seq2a ++ [c2], seq1aindex ++ [i - 1], seq2aindex ++ [j - 1])
      else
        let* t' := grid_getZ tracebk i j in
        if tb_eqb t' Tu then
          let* c2 := str_getitemZ (seq2 self) (j - 1) in
          traceback fuel' self tracebk i (j - 1)
            (seq1a ++ ["-"%char], seq2a ++ [c2], seq1aindex ++ [-1], seq2aindex ++ [j - 1])
        else
          let* c1 := str_getitemZ (seq1 self) (i - 1) in
          traceback fuel' self tracebk (i - 1) j
            (seq1a ++ [c1], seq2a ++ ["-"%char], seq1aindex ++ [i - 1], seq2aindex ++ [-1])
    end
  else Ok acc.

(** The state of the loop that marks the gaps:
    [(seq1indexed, seq2indexed, seq1gv, seq2gv)]. *)
Definition gv_state : Type := list Z * list Z * Z * Z.

Definition mark_step (cnt : nat) (st : gv_state) : outcome gv_state :=
  let '(seq1indexed, seq2indexed, seq1gv, seq2gv) := st in
  let* x1 := getitem seq1indexed cnt in
  let* (seq1indexed, seq1gv) :=
    if x1 =? -1 then
      let* l := setitem seq1indexed cnt seq1gv in Ok (l, seq1gv)
    else Ok (seq1indexed, seq1gv - 1) in
  let* x2 := getitem seq2indexed cnt in
  let* (seq2indexed, seq2gv) :=
    if x2 =? -1 then
      let* l := setitem seq2indexed cnt seq2gv in Ok (l, seq2gv)
    else Ok (seq2indexed, seq2gv - 1) in
  Ok (seq1indexed, seq2indexed, seq1gv, seq2gv).

Definition mark_gaps (seq1indexed seq2indexed : list Z) : outcome gv_state :=
  for_each (seq 0 (length seq1indexed)) mark_step
    (seq1indexed, seq2indexed, -1, -1).

(** The method.  An exception leaves no result; the while loop is run with
    [seq1len + seq2len] iterations of fuel, which [doAlignment_total] shows
    to be enough. *)
Definition doAlignment (self : PairwiseAlignment) : outcome PairwiseAlignment :=
  let seq1len := len (seq1 self) in
  let seq2len := len (seq2 self) in
  let scores := grid_new (S seq1len) (S seq2len) 0 in
  let* tracebk := init_tracebk seq1len seq2len in
  let* (scores, tracebk) := fill self (scores, tracebk) in
  let* score := grid_get scores seq1len seq2len in
  let* (seq1a, seq2a, seq1aindex, seq2aindex) :=
    traceback (seq1len + seq2len) self tracebk
      (Z.of_nat seq1len) (Z.of_nat seq2len) ([], [], [], []) in
  let seq1a := reverse seq1a in
  let seq2a := reverse seq2a in
  let seq1aindex := reverse seq1aindex in
  let seq2aindex := reverse seq2aindex in
  let* (seq1indexed, seq2indexed, seq1gv, seq2gv) := mark_gaps seq1aindex seq2aindex in
  Ok {| gapp := gapp self;
        seq1 := seq1 self; seq2 := seq2 self;
        seq1aligned := join seq1a; seq2aligned := join seq2a;
        seq1indexed := seq1indexed; seq2indexed := seq2indexed;
        score := score |}.

(** * Predicates used in the statements *)

(** A grid of [rows] rows of [cols] cells each. *)
Definition dims {A : Type} (rows cols : nat) (g : list (list A)) : Prop :=
  length g = rows ∧ ∀ i r, g !! i = Some r → length r = cols.

(** The borders of an initialised traceback matrix. *)
Definition borders (n m : nat) (tracebk : list (list tbval)) : Prop :=
  (∀ r, (1 ≤ r ≤ n)%nat → grid_get tracebk r 0 = Ok Tl) ∧
  (∀ c, (1 ≤ c ≤ m)%nat → grid_get tracebk 0 c = Ok Tu).

(** The character at position [k] of [s] is a key of the score table. *)
Definition key_at (s : string) (k : nat) : bool :=
  match list_ascii_of_string s !! k with
  | Some c => is_key c
  | None => false
  end.

(** Both characters read at cell [(i, j)] are keys. *)
Definition good_cell (self : PairwiseAlignment) (i j : nat) : bool :=
  key_at (seq1 self) (i - 1) && key_at (seq2 self) (j - 1).

(** Every cell that the fill visits reads keys only. *)
Definition all_good (self : PairwiseAlignment) : bool :=
  forallb (fun i => forallb (good_cell self i) (seq 1 (len (seq2 self))))
    (seq 1 (len (seq1 self))).

(** Every character of [s] is a key. *)
Definition valid (s : string) : bool := forallb is_key (list_ascii_of_string s).

(** Cell [(r, c)] has been written once rows below [i] are complete and row
    [i] is complete up to column [j]. *)
Definition processed (m i j r c : nat) : Prop :=
  (1 ≤ r ∧ 1 ≤ c ≤ m ∧ (r < i ∨ (r = i ∧ c ≤ j)))%nat.

(** Cell [(r, c)] holds the choice made among its three subscores. *)
Definition cell_ok (self : PairwiseAlignment) (scores : list (list Z))
    (tracebk : list (list tbval)) (r c : nat) : Prop :=
  ∃ sdiag sup sleft,
    candidates self scores r c = Ok (sdiag, sup, sleft) ∧
    grid_get tracebk r c = Ok (choose sdiag sup sleft).1 ∧
    grid_get scores r c = Ok (choose sdiag sup sleft).2.

Definition fill_inv (self : PairwiseAlignment) (i j : nat)
    (st : list (list Z) * list (list tbval)) : Prop :=
  dims (S (len (seq1 self))) (S (len (seq2 self))) st.1 ∧
  dims (S (len (seq1 self))) (S (len (seq2 self))) st.2 ∧
  borders (len (seq1 self)) (len (seq2 self)) st.2 ∧
  ∀ r c, processed (len (seq2 self)) i j r c → cell_ok self st.1 st.2 r c.

(** [trace_ok s i cs ix]: read left to right, the columns [cs] (characters)
    and [ix] (raw indices) spell out the first [i] symbols of [s], in order,
    interleaved with gap columns carrying the raw marker [-1]. *)
Inductive trace_ok (s : list ascii) : nat → list ascii → list Z → Prop :=
| trace_nil : trace_ok s 0 [] []
| trace_gap i cs ix :
    trace_ok s i cs ix → trace_ok s i (cs ++ ["-"%char]) (ix ++ [-1])
| trace_base i c cs ix :
    s !! i = Some c → trace_ok s i cs ix →
    trace_ok s (S i) (cs ++ [c]) (ix ++ [Z.of_nat i]).

(** What the marking loop computes on one index list, as a recursion on the
    list: a raw [-1] becomes the running value [gv], any other entry
    decrements [gv]. *)
Fixpoint mark (gv : Z) (l : list Z) : list Z :=
  match l with
  | [] => []
  | x :: l' => if x =? -1 then gv :: mark gv l' else x :: mark (gv - 1) l'
  end.

Fixpoint gv_after (gv : Z) (l : list Z) : Z :=
  match l with
  | [] => gv
  | x :: l' => if x =? -1 then gv_after gv l' else gv_after (gv - 1) l'
  end.

(** One half of the loop body: the treatment of one of the two lists. *)
Definition mark_one (l : list Z) (cnt : nat) (gv : Z) : outcome (list Z * Z) :=
  let* x := getitem l cnt in
  if x =? -1 then let* l' := setitem l cnt gv in Ok (l', gv) else Ok (l, gv - 1).

(** [final_ok s i cs ix]: the columns of a finished alignment of the first
    [i] symbols of [s].  A gap column holds ['-'] and the sentinel
    [-(i+1)], where [i] is the index of the next symbol of [s] to be placed;
    a base column holds [s[i]] and [i]. *)
Inductive final_ok (s : list ascii) : nat → list ascii → list Z → Prop :=
| final_nil : final_ok s 0 [] []
| final_gap i cs ix :
    final_ok s i cs ix → final_ok s i (cs ++ ["-"%char]) (ix ++ [- (Z.of_nat i + 1)])
| final_base i c cs ix :
    s !! i = Some c → final_ok s i cs ix →
    final_ok s (S i) (cs ++ [c]) (ix ++ [Z.of_nat i]).

(** The sentinels of an index list of a sequence of [i] symbols: next to
    each other they are equal, the one before a base [w] is [-(w+1)], and a
    trailing one is [-(i+1)]. *)
Definition sentinels_ok (i : nat) (ix : list Z) : Prop :=
  (∀ c v w, ix !! c = Some v → ix !! S c = Some w → v < 0 →
     (w < 0 → w = v) ∧ (0 ≤ w → v = - (w + 1))) ∧
  (∀ v, last ix = Some v → v < 0 → v = - (Z.of_nat i + 1)).

(** Columns [c] to [d] of [ix] are gaps: a run of consecutive gap columns
    (not necessarily a maximal one). *)
Definition gap_run (ix : list Z) (c d : nat) : Prop :=
  (c ≤ d)%nat ∧ ∀ e, (c ≤ e ≤ d)%nat → ∃ v, ix !! e = Some v ∧ v < 0.

(** What a run that ends in column [d] must hold, for a sequence of [len]
    symbols: [-(w+1)] when the base of index [w] follows in column [d+1],
    and [-(len+1)] when [d] is the last column. *)
Definition run_sentinel (len : nat) (ix : list Z) (d : nat) (v : Z) : Prop :=
  match ix !! S d with
  | Some w => 0 <= w → v = - (w + 1)
  | None => v = - (Z.of_nat len + 1)
  end.

(** The cost of a column that pairs a symbol with a gap, when the gap falls
    after [k] symbols of a sequence of [len] symbols: end gaps, before the
    first symbol or after the last, are free; any other gap costs the gap
    penalty. *)
Definition gap_cost (gap_penalty : Z) (len k : nat) : Z :=
  if (k =? 0)%nat || (k =? len)%nat then 0 else gap_penalty.

(** [alignment_of mk self i j cs1 cs2 x1 x2 t]: read left to right, the
    columns [(cs1, cs2)] align the first [i] symbols of [seq1] with the first
    [j] symbols of [seq2]; [x1] and [x2] are the index lists of the columns,
    where a gap after [k] symbols is written [mk k]; [t] is the total of the
    column scores: the table entry for a pair of symbols, [gap_cost] for a
    gap. *)
Inductive alignment_of (mk : nat → Z) (self : PairwiseAlignment)
  : nat → nat → list ascii → list ascii → list Z → list Z → Z → Prop :=
| al_nil : alignment_of mk self 0 0 [] [] [] [] 0
| al_pair i j a b r s cs1 cs2 x1 x2 t :
    alignment_of mk self i j cs1 cs2 x1 x2 t →
    list_ascii_of_string (seq1 self) !! i = Some a →
    list_ascii_of_string (seq2 self) !! j = Some b →
    dict_get svals a = Ok r → dict_get r b = Ok s →
    alignment_of mk self (S i) (S j) (cs1 ++ [a]) (cs2 ++ [b])
      (x1 ++ [Z.of_nat i]) (x2 ++ [Z.of_nat j]) (t + s)
| al_gap1 i j b cs1 cs2 x1 x2 t :
    alignment_of mk self i j cs1 cs2 x1 x2 t →
    (i ≤ len (seq1 self))%nat →
    list_ascii_of_string (seq2 self) !! j = Some b →
    alignment_of mk self i (S j) (cs1 ++ ["-"%char]) (cs2 ++ [b])
      (x1 ++ [mk i]) (x2 ++ [Z.of_nat j])
      (t + gap_cost (gapp self) (len (seq1 self)) i)
| al_gap2 i j a cs1 cs2 x1 x2 t :
    alignment_of mk self i j cs1 cs2 x1 x2 t →
    (j ≤ len (seq2 self))%nat →
    list_ascii_of_string (seq1 self) !! i = Some a →
    alignment_of mk self (S i) j (cs1 ++ [a]) (cs2 ++ ["-"%char])
      (x1 ++ [Z.of_nat i]) (x2 ++ [mk j])
      (t + gap_cost (gapp self) (len (seq2 self)) j).

(** The columns as the traceback emits them: every gap carries [-1]. *)
Definition raw_alignment : PairwiseAlignment → nat → nat → list ascii → list ascii →
    list Z → list Z → Z → Prop :=
  alignment_of (fun _ => -1).

(** The columns as the method returns them: a gap after [k] symbols
    carries the sentinel [-(k+1)]. *)
Definition alignment : PairwiseAlignment → nat → nat → list ascii → list ascii →
    list Z → list Z → Z → Prop :=
  alignment_of (fun k => - (Z.of_nat k + 1)).

(** [svals[c1][c2]] *)
Definition score_of (c1 c2 : ascii) : outcome Z :=
  let* r := dict_get svals c1 in dict_get r c2.

(** The four unambiguous bases. *)
Definition bases : list ascii := ["A"; "T"; "G"; "C"]%char.

(** Every character of [s] is one of the four unambiguous bases. *)
Definition unambiguous (s : string) : bool :=
  forallb (fun c => bool_decide (c ∈ bases)) (list_ascii_of_string s).

(** [s.replace('-', '')]: the string without its gap characters. *)
Definition ungap (s : string) : string :=
  string_of_list_ascii (filter (fun a => a ≠ "-"%char) (list_ascii_of_string s)).

(** The first row and the first column of the score grid hold zero. *)
Definition zero_borders (n m : nat) (scores : list (list Z)) : Prop :=
  ∀ r c, (r = 0 ∨ c = 0)%nat → (r ≤ n)%nat → (c ≤ m)%nat → grid_get scores r c = Ok 0.

(** * Properties *)

(** ** The error monad and the loops *)

Lemma bind_Ok {A B : Type} (m : outcome A) (k : A → outcome B) (b : B) :
  bind m k = Ok b ↔ ∃ a, m = Ok a ∧ k a = Ok b.
Proof.
  destruct m as [a| |]; simpl; split; try discriminate; eauto.
  - intros (a' & [= <-] & H). exact H.
  - intros (a' & [=] & _).
  - intros (a' & [=] & _).
Qed.

Section range_loops.
Context {S : Type} (body : nat → S → outcome S).

(** A [for i in range(a, a+n)] loop whose body either succeeds and
    re-establishes the invariant, or raises [e0] at the first index that is
    not [good]. *)
Lemma for_range_spec (P : nat → S → Prop) (good : nat → bool) (e0 : exn) :
  ∀ (n a : nat) (s : S),
    P a s →
    (∀ i s, (a ≤ i < a + n)%nat → P i s →
       if good i then ∃ s', body i s = Ok s' ∧ P (Datatypes.S i) s'
       else body i s = Raise e0) →
    if forallb good (seq a n)
    then ∃ s', for_each (seq a n) body s = Ok s' ∧ P (a + n)%nat s'
    else for_each (seq a n) body s = Raise e0.
Proof.
  induction n as [|n IH]; intros a s HP Hstep; simpl.
  - exists s. rewrite Nat.add_0_r. auto.
  - pose proof (Hstep a s ltac:(lia) HP) as Ha.
    destruct (good a); simpl.
    + destruct Ha as (s' & -> & HP'). simpl.
      specialize (IH (Datatypes.S a) s' HP').
      replace (a + Datatypes.S n)%nat with (Datatypes.S a + n)%nat by lia.
      apply IH. intros i s0 Hi. apply Hstep. lia.
    + rewrite Ha. reflexivity.
Qed.

(** The same loop when the body never raises. *)
Lemma for_range_inv (P : nat → S → Prop) :
  ∀ (n a : nat) (s : S),
    P a s →
    (∀ i s, (a ≤ i < a + n)%nat → P i s →
       ∃ s', body i s = Ok s' ∧ P (Datatypes.S i) s') →
    ∃ s', for_each (seq a n) body s = Ok s' ∧ P (a + n)%nat s'.
Proof.
  intros n a s HP Hstep.
  pose proof (for_range_spec P (fun _ => true) KeyError n a s HP Hstep) as H.
  replace (forallb (fun _ => true) (seq a n)) with true in H; [exact H|].
  symmetry. apply forallb_forall. auto.
Qed.
End range_loops.

(** ** Lists and grids *)

Lemma getitem_Ok {A : Type} (l : list A) (i : nat) (x : A) :
  getitem l i = Ok x ↔ l !! i = Some x.
Proof.
  unfold getitem. destruct (l !! i); split; intros H; inversion H; auto.
Qed.

Lemma getitem_lt {A : Type} (l : list A) (i : nat) :
  (i < length l)%nat → ∃ x, getitem l i = Ok x.
Proof.
  intros H. destruct (lookup_lt_is_Some_2 l i H) as [x Hx].
  exists x. by apply getitem_Ok.
Qed.

Lemma setitem_Ok {A : Type} (l : list A) (i : nat) (x : A) (l' : list A) :
  setitem l i x = Ok l' ↔ (i < length l)%nat ∧ l' = <[i:=x]> l.
Proof.
  unfold setitem. destruct (Nat.ltb_spec i (length l)); split.
  - intros [= <-]. auto.
  - intros [_ ->]. reflexivity.
  - discriminate.
  - intros [? _]. lia.
Qed.

Lemma getitemZ_of_nat {A : Type} (l : list A) (k : nat) :
  getitemZ l (Z.of_nat k) = getitem l k.
Proof.
  unfold getitemZ, py_index.
  destruct (Z.leb_spec 0 (Z.of_nat k)); [|lia].
  destruct (Z.ltb_spec (Z.of_nat k) (Z.of_nat (length l))); simpl.
  - by rewrite Nat2Z.id.
  - unfold getitem. rewrite lookup_ge_None_2; [done|lia].
Qed.

Lemma grid_new_dims {A : Type} (rows cols : nat) (x : A) :
  dims rows cols (grid_new rows cols x).
Proof.
  split.
  - apply length_replicate.
  - intros i r [-> _]%lookup_replicate. apply length_replicate.
Qed.

Lemma grid_get_new {A : Type} (rows cols i j : nat) (x : A) :
  (i < rows)%nat → (j < cols)%nat → grid_get (grid_new rows cols x) i j = Ok x.
Proof.
  intros Hi Hj. unfold grid_get, grid_new, getitem.
  rewrite lookup_replicate_2 by done. simpl.
  by rewrite lookup_replicate_2.
Qed.

Lemma grid_get_Ok {A : Type} (g : list (list A)) (i j : nat) (x : A) :
  grid_get g i j = Ok x ↔ ∃ r, g !! i = Some r ∧ r !! j = Some x.
Proof.
  unfold grid_get. rewrite bind_Ok. split.
  - intros (r & Hr%getitem_Ok & Hx%getitem_Ok). eauto.
  - intros (r & Hr & Hx). exists r. by rewrite !getitem_Ok.
Qed.

Lemma grid_get_lt {A : Type} (rows cols : nat) (g : list (list A)) (i j : nat) :
  dims rows cols g → (i < rows)%nat → (j < cols)%nat → ∃ x, grid_get g i j = Ok x.
Proof.
  intros [Hl Hr] Hi Hj.
  destruct (lookup_lt_is_Some_2 g i) as [r Hgr]; [lia|].
  destruct (lookup_lt_is_Some_2 r j) as [x Hx]; [rewrite (Hr _ _ Hgr); lia|].
  exists x. apply grid_get_Ok. eauto.
Qed.

Lemma grid_set_lt {A : Type} (rows cols : nat) (g : list (list A)) (i j : nat) (x : A) :
  dims rows cols g → (i < rows)%nat → (j < cols)%nat → ∃ g', grid_set g i j x = Ok g'.
Proof.
  intros [Hl Hr] Hi Hj.
  destruct (lookup_lt_is_Some_2 g i) as [r Hgr]; [lia|].
  unfold grid_set, getitem, setitem. rewrite Hgr. simpl.
  rewrite (Hr _ _ Hgr). destruct (Nat.ltb_spec j cols); [|lia].
  simpl. eauto.
Qed.

Lemma grid_set_Ok {A : Type} (g : list (list A)) (i j : nat) (x : A) (g' : list (list A)) :
  grid_set g i j x = Ok g' →
  ∃ r, g !! i = Some r ∧ (j < length r)%nat ∧ g' = <[i:=<[j:=x]> r]> g.
Proof.
  unfold grid_set. intros (r & Hr%getitem_Ok & (r' & [Hj ->]%setitem_Ok & [= <-])%bind_Ok)%bind_Ok.
  eauto.
Qed.

Lemma grid_set_dims {A : Type} (rows cols : nat) (g : list (list A)) (i j : nat) (x : A)
    (g' : list (list A)) :
  dims rows cols g → grid_set g i j x = Ok g' → dims rows cols g'.
Proof.
  intros [Hl Hr] (r & Hgr & Hj & ->)%grid_set_Ok. split.
  - by rewrite length_insert.
  - intros k r' Hk. destruct (decide (k = i)) as [->|Hne].
    + rewrite list_lookup_insert_eq in Hk by (apply lookup_lt_Some in Hgr; lia).
      injection Hk as <-. rewrite length_insert. eauto.
    + rewrite list_lookup_insert_ne in Hk by done. eauto.
Qed.

Lemma grid_get_set_eq {A : Type} (g : list (list A)) (i j : nat) (x : A) (g' : list (list A)) :
  grid_set g i j x = Ok g' → grid_get g' i j = Ok x.
Proof.
  intros (r & Hgr & Hj & ->)%grid_set_Ok. apply grid_get_Ok.
  exists (<[j:=x]> r). split.
  - apply list_lookup_insert_eq. by apply lookup_lt_Some in Hgr.
  - by apply list_lookup_insert_eq.
Qed.

Lemma grid_get_set_ne {A : Type} (g : list (list A)) (i j i' j' : nat) (x : A)
    (g' : list (list A)) :
  grid_set g i j x = Ok g' → (i' ≠ i ∨ j' ≠ j) → grid_get g' i' j' = grid_get g i' j'.
Proof.
  intros (r & Hgr & Hj & ->)%grid_set_Ok Hne.
  unfold grid_get, getitem.
  destruct (decide (i' = i)) as [->|Hi].
  - rewrite list_lookup_insert_eq by (by apply lookup_lt_Some in Hgr).
    rewrite Hgr. simpl. rewrite list_lookup_insert_ne; [done|]. destruct Hne; congruence.
  - by rewrite list_lookup_insert_ne.
Qed.

(** ** The score table *)

Lemma dict_get_case {V : Type} (d : list (ascii * V)) (k : ascii) :
  (∃ v, dict_get d k = Ok v ∧ (k, v) ∈ d) ∨ (dict_get d k = Raise KeyError ∧ k ∉ d.*1).
Proof.
  induction d as [|[k' v] d IH]; simpl.
  - right. split; [done|]. apply not_elem_of_nil.
  - destruct (Ascii.eqb_spec k' k) as [->|Hne].
    + left. exists v. split; [done|]. apply list_elem_of_here.
    + destruct IH as [(v' & Hv & Hin)|[Hr Hnin]].
      * left. exists v'. split; [done|]. by apply list_elem_of_further.
      * right. split; [done|]. intros [?|?]%elem_of_cons; [congruence|done].
Qed.

Lemma dict_get_keys {V : Type} (d : list (ascii * V)) (k : ascii) :
  k ∈ d.*1 → ∃ v, dict_get d k = Ok v.
Proof.
  intros Hin. destruct (dict_get_case d k) as [(v & Hv & _)|[_ Hnin]]; [eauto|done].
Qed.

Lemma is_key_alphabet (c : ascii) : is_key c = true ↔ c ∈ alphabet.
Proof.
  unfold is_key. change alphabet with (svals.*1).
  destruct (dict_get_case svals c) as [(v & -> & Hin)|[-> Hnin]].
  - split; [|done]. intros _. apply list_elem_of_fmap. by exists (c, v).
  - split; [done|]. intros ?. done.
Qed.

Lemma svals_rows : Forall (fun kr : ascii * list (ascii * Z) => kr.2.*1 = alphabet) svals.
Proof. repeat constructor. Qed.

(** The two-level lookup [svals[c1][c2]] succeeds exactly on pairs of keys,
    and raises [KeyError] otherwise. *)
Lemma svals_lookup (c1 : ascii) :
  if is_key c1
  then ∃ r, dict_get svals c1 = Ok r ∧
         ∀ c2, if is_key c2 then ∃ s, dict_get r c2 = Ok s
               else dict_get r c2 = Raise KeyError
  else dict_get svals c1 = Raise KeyError.
Proof.
  destruct (is_key c1) eqn:H1; unfold is_key in H1.
  - destruct (dict_get_case svals c1) as [(r & Hr & Hin)|[Hr _]]; [|by rewrite Hr in H1].
    exists r. split; [done|]. intros c2.
    pose proof (proj1 (Forall_forall _ _) svals_rows _ Hin) as Hkeys. simpl in Hkeys.
    destruct (is_key c2) eqn:H2.
    + apply is_key_alphabet in H2. rewrite <- Hkeys in H2.
      by apply dict_get_keys.
    + destruct (dict_get_case r c2) as [(s & Hs & Hin2)|[Hs _]]; [|done].
      assert (is_key c2 = true); [|congruence].
      apply is_key_alphabet. rewrite <- Hkeys.
      apply list_elem_of_fmap. by exists (c2, s).
  - destruct (dict_get_case svals c1) as [(r & Hr & Hin)|[Hr _]]; [by rewrite Hr in H1|].
    done.
Qed.

(** ** The traceback matrix before the fill *)

Lemma init_tracebk_spec (n m : nat) :
  ∃ tracebk, init_tracebk n m = Ok tracebk ∧
    dims (S n) (S m) tracebk ∧ borders n m tracebk.
Proof.
  unfold init_tracebk.
  destruct (for_range_inv (fun i tb => grid_set tb i 0%nat Tl)
    (fun i tb => dims (S n) (S m) tb ∧ ∀ r, (1 ≤ r < i)%nat → grid_get tb r 0 = Ok Tl)
    n 1%nat (grid_new (S n) (S m) T0)) as (tb1 & -> & Hd1 & Hl1).
  { split; [apply grid_new_dims|]. intros; lia. }
  { intros i tb Hi [Hd Hl].
    destruct (grid_set_lt _ _ tb i 0%nat Tl Hd) as [tb' Htb']; [lia..|].
    exists tb'. split; [done|]. split; [by eapply grid_set_dims|].
    intros r Hr. destruct (decide (r = i)) as [->|Hne].
    - by eapply grid_get_set_eq.
    - rewrite (grid_get_set_ne _ _ _ _ _ _ _ Htb') by auto. apply Hl. lia. }
  simpl.
  destruct (for_range_inv (fun j tb => grid_set tb 0%nat j Tu)
    (fun j tb => dims (S n) (S m) tb ∧
       (∀ r, (1 ≤ r ≤ n)%nat → grid_get tb r 0 = Ok Tl) ∧
       ∀ c, (1 ≤ c < j)%nat → grid_get tb 0 c = Ok Tu)
    m 1%nat tb1) as (tb2 & -> & Hd2 & Hl2 & Hu2).
  { split; [done|]. split; [|intros; lia]. intros r Hr. apply Hl1. lia. }
  { intros j tb Hj (Hd & Hl & Hu).
    destruct (grid_set_lt _ _ tb 0%nat j Tu Hd) as [tb' Htb']; [lia..|].
    exists tb'. split; [done|]. split; [by eapply grid_set_dims|]. split.
    - intros r Hr. rewrite (grid_get_set_ne _ _ _ _ _ _ _ Htb') by (left; lia). by apply Hl.
    - intros c Hc. destruct (decide (c = j)) as [->|Hne].
      + by eapply grid_get_set_eq.
      + rewrite (grid_get_set_ne _ _ _ _ _ _ _ Htb') by auto. apply Hu. lia. }
  exists tb2. split; [done|]. split; [done|]. split; [done|].
  intros c Hc. apply Hu2. lia.
Qed.

(** ** The grid fill *)

Section fill.
Variable self : PairwiseAlignment.
Local Abbreviation n := (len (seq1 self)).
Local Abbreviation m := (len (seq2 self)).

Lemma str_getitem_lt (s : string) (k : nat) :
  (k < len s)%nat → ∃ c, str_getitem s k = Ok c ∧ key_at s k = is_key c.
Proof.
  intros Hk. unfold str_getitem, getitem, key_at.
  destruct (lookup_lt_is_Some_2 (list_ascii_of_string s) k Hk) as [c ->]. eauto.
Qed.

(** The subscores depend on the score grid through three cells only. *)
Lemma candidates_ext (scores scores' : list (list Z)) (i j : nat) :
  grid_get scores' (i - 1) (j - 1) = grid_get scores (i - 1) (j - 1) →
  grid_get scores' i (j - 1) = grid_get scores i (j - 1) →
  grid_get scores' (i - 1) j = grid_get scores (i - 1) j →
  candidates self scores' i j = candidates self scores i j.
Proof. intros H1 H2 H3. unfold candidates. by rewrite H1, H2, H3. Qed.

Lemma candidates_spec (scores : list (list Z)) (i j : nat) :
  dims (S n) (S m) scores → (1 ≤ i ≤ n)%nat → (1 ≤ j ≤ m)%nat →
  if good_cell self i j
  then ∃ sdiag sup sleft, candidates self scores i j = Ok (sdiag, sup, sleft)
  else candidates self scores i j = Raise KeyError.
Proof.
  intros Hd Hi Hj. unfold candidates, good_cell.
  destruct (grid_get_lt _ _ scores (i - 1) (j - 1) Hd) as [a ->]; [lia..|].
  destruct (grid_get_lt _ _ scores i (j - 1) Hd) as [u ->]; [lia..|].
  destruct (grid_get_lt _ _ scores (i - 1) j Hd) as [l ->]; [lia..|].
  destruct (str_getitem_lt (seq1 self) (i - 1)) as (c1 & -> & ->); [lia|].
  destruct (str_getitem_lt (seq2 self) (j - 1)) as (c2 & -> & ->); [lia|].
  cbn [bind]. pose proof (svals_lookup c1) as H1.
  destruct (is_key c1); cbn [andb]; [|by rewrite H1].
  destruct H1 as (r & -> & H2). specialize (H2 c2). cbn [bind].
  destruct (is_key c2); [|by rewrite H2].
  destruct H2 as (s & ->). cbn [bind]. eauto.
Qed.

Lemma fill_cell_spec (i j : nat) (st : list (list Z) * list (list tbval)) :
  (1 ≤ i ≤ n)%nat → (1 ≤ j ≤ m)%nat → fill_inv self i (j - 1) st →
  if good_cell self i j
  then ∃ st', fill_cell self i j st = Ok st' ∧ fill_inv self i j st'
  else fill_cell self i j st = Raise KeyError.
Proof.
  intros Hi Hj. destruct st as [sc tb]. intros (Hdsc & Hdtb & [Hl Hu] & Hcells).
  simpl in Hdsc, Hdtb, Hl, Hu, Hcells.
  pose proof (candidates_spec sc i j Hdsc Hi Hj) as Hc.
  unfold fill_cell. destruct (good_cell self i j); [|by rewrite Hc].
  destruct Hc as (d & u & l & Hc). rewrite Hc. cbn [bind].
  destruct (choose d u l) as [dir best] eqn:Hch.
  destruct (grid_set_lt _ _ tb i j dir Hdtb) as [tb' Htb]; [lia..|].
  destruct (grid_set_lt _ _ sc i j best Hdsc) as [sc' Hsc]; [lia..|].
  rewrite Htb, Hsc. cbn [bind]. eexists. split; [done|].
  assert (Hframe : ∀ r c, (r ≠ i ∨ c ≠ j) →
    grid_get sc' r c = grid_get sc r c ∧ grid_get tb' r c = grid_get tb r c).
  { intros r c Hne. split; by eapply grid_get_set_ne. }
  split; [by eapply grid_set_dims|]. split; [by eapply grid_set_dims|].
  split; [split|]; simpl.
  - intros r Hr. rewrite (proj2 (Hframe r 0%nat ltac:(lia))). by apply Hl.
  - intros c Hc'. rewrite (proj2 (Hframe 0%nat c ltac:(lia))). by apply Hu.
  - intros r c (Hr & Hc' & Hrc).
    destruct (decide (r = i ∧ c = j)) as [[-> ->]|Hne].
    + exists d, u, l. rewrite Hch. simpl. split; [|split].
      * rewrite <- Hc. apply candidates_ext; apply Hframe; lia.
      * by eapply grid_get_set_eq.
      * by eapply grid_get_set_eq.
    + destruct (Hcells r c) as (d' & u' & l' & Hc1 & Hc2 & Hc3).
      { unfold processed. lia. }
      exists d', u', l'. split; [|split].
      * rewrite <- Hc1. apply candidates_ext; apply Hframe; lia.
      * rewrite <- Hc2. apply Hframe. lia.
      * rewrite <- Hc3. apply Hframe. lia.
Qed.

(** The fill either completes, leaving every cell of the grid with the
    choice among its subscores, or raises [KeyError] at the first cell
    that reads a character outside the table. *)
Lemma fill_spec (tracebk : list (list tbval)) :
  dims (S n) (S m) tracebk → borders n m tracebk →
  if all_good self
  then ∃ st', fill self (grid_new (S n) (S m) 0, tracebk) = Ok st' ∧
              fill_inv self n m st'
  else fill self (grid_new (S n) (S m) 0, tracebk) = Raise KeyError.
Proof.
  intros Hd Hb. unfold fill, all_good.
  pose proof (for_range_spec
    (fun i st => for_each (seq 1 m) (fun j st => fill_cell self i j st) st)
    (fun i st => fill_inv self (i - 1) m st)
    (fun i => forallb (good_cell self i) (seq 1 m)) KeyError n 1%nat
    (grid_new (S n) (S m) 0, tracebk)) as H.
  cbv beta in H. replace (1 + n - 1)%nat with n in H by lia.
  apply H; clear H.
  - split; [apply grid_new_dims|]. split; [done|]. split; [done|].
    intros r c Hp. unfold processed in Hp. lia.
  - intros i st Hi Hinv.
    pose proof (for_range_spec (fun j st => fill_cell self i j st)
      (fun j st => fill_inv self i (j - 1) st) (good_cell self i) KeyError m 1%nat st) as H.
    cbv beta in H. replace (1 + m - 1)%nat with m in H by lia.
    replace (S i - 1)%nat with i by lia.
    apply H; clear H.
    + destruct Hinv as (? & ? & ? & Hcells). repeat (split; [done|]).
      intros r c Hp. apply Hcells. unfold processed in *. lia.
    + intros j st' Hj Hinv'.
      replace (S j - 1)%nat with j by lia.
      apply fill_cell_spec; [lia..|done].
Qed.

Lemma all_good_iff :
  all_good self = true ↔
  n = 0%nat ∨ m = 0%nat ∨ (valid (seq1 self) = true ∧ valid (seq2 self) = true).
Proof.
  unfold all_good, valid, good_cell, key_at, len.
  set (l1 := list_ascii_of_string (seq1 self)).
  set (l2 := list_ascii_of_string (seq2 self)).
  rewrite !forallb_forall. split.
  - intros H.
    destruct (decide (length l1 = 0%nat)) as [?|Hn]; [by left|].
    destruct (decide (length l2 = 0%nat)) as [?|Hm]; [by right; left|].
    right; right. split; intros c Hin%list_elem_of_In.
    + apply list_elem_of_lookup in Hin as [k Hk].
      pose proof (lookup_lt_Some _ _ _ Hk) as Hlt.
      specialize (H (S k)).
      rewrite forallb_forall in H.
      specialize (H ltac:(apply in_seq; lia) 1%nat ltac:(apply in_seq; lia)).
      replace (S k - 1)%nat with k in H by lia. rewrite Hk in H.
      by apply andb_prop in H as [? _].
    + apply list_elem_of_lookup in Hin as [k Hk].
      pose proof (lookup_lt_Some _ _ _ Hk) as Hlt.
      specialize (H 1%nat).
      rewrite forallb_forall in H.
      specialize (H ltac:(apply in_seq; lia) (S k) ltac:(apply in_seq; lia)).
      replace (S k - 1)%nat with k in H by lia. rewrite Hk in H.
      by apply andb_prop in H as [_ ?].
  - intros H i Hi%in_seq. apply forallb_forall. intros j Hj%in_seq.
    destruct H as [H|[H|[H1 H2]]]; [lia..|].
    destruct (lookup_lt_is_Some_2 l1 (i - 1)) as [c1 Hc1]; [lia|].
    destruct (lookup_lt_is_Some_2 l2 (j - 1)) as [c2 Hc2]; [lia|].
    rewrite Hc1, Hc2. apply andb_true_intro.
    split; [apply H1|apply H2]; apply list_elem_of_In, list_elem_of_lookup; eauto.
Qed.
End fill.

(** ** The traceback *)

Lemma grid_getZ_of_nat {A : Type} (g : list (list A)) (i j : nat) :
  grid_getZ g (Z.of_nat i) (Z.of_nat j) = grid_get g i j.
Proof.
  unfold grid_getZ, grid_get. rewrite getitemZ_of_nat.
  destruct (getitem g i); simpl; [apply getitemZ_of_nat|done..].
Qed.

Lemma str_getitemZ_pred (s : string) (i : nat) :
  (1 ≤ i ≤ len s)%nat →
  ∃ c, str_getitemZ s (Z.of_nat i - 1) = Ok c ∧ list_ascii_of_string s !! (i - 1)%nat = Some c.
Proof.
  intros Hi. unfold str_getitemZ.
  replace (Z.of_nat i - 1) with (Z.of_nat (i - 1)) by lia.
  rewrite getitemZ_of_nat.
  destruct (getitem_lt (list_ascii_of_string s) (i - 1)) as [c Hc]; [unfold len in Hi; lia|].
  exists c. split; [done|]. by apply getitem_Ok.
Qed.

Section traceback.
Variable self : PairwiseAlignment.
Local Abbreviation n := (len (seq1 self)).
Local Abbreviation m := (len (seq2 self)).
Variable tracebk : list (list tbval).
Hypothesis tracebk_dims : dims (S n) (S m) tracebk.
Hypothesis tracebk_borders : borders n m tracebk.

(** From cell [(i, j)] the loop reaches [(0, 0)] within [i + j]
    iterations, raises nothing, and appends (in reverse) an alignment of
    the two prefixes. *)
Lemma traceback_spec (fuel : nat) :
  ∀ (i j : nat) (s1 s2 : list ascii) (x1 x2 : list Z),
    (i ≤ n)%nat → (j ≤ m)%nat → (i + j ≤ fuel)%nat →
    ∃ a1 a2 y1 y2,
      traceback fuel self tracebk (Z.of_nat i) (Z.of_nat j) (s1, s2, x1, x2)
        = Ok (s1 ++ a1, s2 ++ a2, x1 ++ y1, x2 ++ y2) ∧
      trace_ok (list_ascii_of_string (seq1 self)) i (reverse a1) (reverse y1) ∧
      trace_ok (list_ascii_of_string (seq2 self)) j (reverse a2) (reverse y2) ∧
      length a1 = length a2.
Proof.
  destruct tracebk_borders as [Hleft Hup].
  induction fuel as [|fuel IH]; intros i j s1 s2 x1 x2 Hi Hj Hf.
  - assert (i = 0%nat) as -> by lia. assert (j = 0%nat) as -> by lia.
    exists [], [], [], []. rewrite !app_nil_r. simpl. repeat split; constructor.
  - destruct (decide (i = 0 ∧ j = 0)%nat) as [[-> ->]|Hne].
    { exists [], [], [], []. rewrite !app_nil_r. simpl. repeat split; constructor. }
    cbn [traceback].
    replace ((0 <? Z.of_nat i) || (0 <? Z.of_nat j)) with true
      by (symmetry; apply orb_true_iff; rewrite !Z.ltb_lt; lia).
    rewrite grid_getZ_of_nat.
    destruct (grid_get_lt _ _ tracebk i j tracebk_dims) as [t Ht]; [lia..|].
    rewrite Ht. cbn [bind].
    assert (Hi0 : i = 0%nat → t = Tu).
    { intros ->. rewrite Hup in Ht by lia. congruence. }
    assert (Hj0 : j = 0%nat → t = Tl).
    { intros ->. rewrite Hleft in Ht by lia. congruence. }
    destruct (tb_eqb t Td) eqn:Ed; [|destruct (tb_eqb t Tu) eqn:Eu].
    + assert (1 ≤ i ∧ 1 ≤ j)%nat as [Hi1 Hj1].
      { split; [destruct (decide (i = 0%nat)) as [E|]; [|lia]; apply Hi0 in E
               |destruct (decide (j = 0%nat)) as [E|]; [|lia]; apply Hj0 in E];
        subst t; discriminate. }
      destruct (str_getitemZ_pred (seq1 self) i) as (c1 & -> & Hc1); [lia|].
      destruct (str_getitemZ_pred (seq2 self) j) as (c2 & -> & Hc2); [lia|].
      cbn [bind].
      replace (Z.of_nat i - 1) with (Z.of_nat (i - 1)) by lia.
      replace (Z.of_nat j - 1) with (Z.of_nat (j - 1)) by lia.
      destruct (IH (i - 1)%nat (j - 1)%nat (s1 ++ [c1]) (s2 ++ [c2])
                  (x1 ++ [Z.of_nat (i - 1)]) (x2 ++ [Z.of_nat (j - 1)]))
        as (a1 & a2 & y1 & y2 & -> & T1 & T2 & Hlen); [lia..|].
      exists (c1 :: a1), (c2 :: a2), (Z.of_nat (i - 1) :: y1), (Z.of_nat (j - 1) :: y2).
      rewrite <- !app_assoc. split; [done|]. rewrite !reverse_cons.
      split; [|split; [|simpl; lia]].
      * replace i with (S (i - 1)) at 1 by lia. by constructor.
      * replace j with (S (j - 1)) at 1 by lia. by constructor.
    + assert (1 ≤ j)%nat as Hj1.
      { destruct (decide (j = 0%nat)) as [E|]; [|lia]. apply Hj0 in E.
        subst t; discriminate. }
      destruct (str_getitemZ_pred (seq2 self) j) as (c2 & -> & Hc2); [lia|].
      cbn [bind].
      replace (Z.of_nat j - 1) with (Z.of_nat (j - 1)) by lia.
      destruct (IH i (j - 1)%nat (s1 ++ ["-"%char]) (s2 ++ [c2])
                  (x1 ++ [-1]) (x2 ++ [Z.of_nat (j - 1)]))
        as (a1 & a2 & y1 & y2 & -> & T1 & T2 & Hlen); [lia..|].
      exists ("-"%char :: a1), (c2 :: a2), (-1 :: y1), (Z.of_nat (j - 1) :: y2).
      rewrite <- !app_assoc. split; [done|]. rewrite !reverse_cons.
      split; [|split; [|simpl; lia]].
      * by constructor.
      * replace j with (S (j - 1)) at 1 by lia. by constructor.
    + assert (1 ≤ i)%nat as Hi1.
      { destruct (decide (i = 0%nat)) as [E|]; [|lia]. apply Hi0 in E.
        subst t; discriminate. }
      destruct (str_getitemZ_pred (seq1 self) i) as (c1 & -> & Hc1); [lia|].
      cbn [bind].
      replace (Z.of_nat i - 1) with (Z.of_nat (i - 1)) by lia.
      destruct (IH (i - 1)%nat j (s1 ++ [c1]) (s2 ++ ["-"%char])
                  (x1 ++ [Z.of_nat (i - 1)]) (x2 ++ [-1]))
        as (a1 & a2 & y1 & y2 & -> & T1 & T2 & Hlen); [lia..|].
      exists (c1 :: a1), ("-"%char :: a2), (Z.of_nat (i - 1) :: y1), (-1 :: y2).
      rewrite <- !app_assoc. split; [done|]. rewrite !reverse_cons.
      split; [|split; [|simpl; lia]].
      * replace i with (S (i - 1)) at 1 by lia. by constructor.
      * by constructor.
Qed.
End traceback.

(** ** Marking the gaps *)

Lemma mark_step_eq (cnt : nat) (l1 l2 : list Z) (g1 g2 : Z) :
  mark_step cnt (l1, l2, g1, g2) =
  let* (l1', g1') := mark_one l1 cnt g1 in
  let* (l2', g2') := mark_one l2 cnt g2 in
  Ok (l1', l2', g1', g2').
Proof.
  unfold mark_step, mark_one.
  destruct (getitem l1 cnt) as [x1| |]; cbn [bind]; [|done..].
  destruct (x1 =? -1); cbn [bind].
  - destruct (setitem l1 cnt g1); cbn [bind]; [|done..].
    destruct (getitem l2 cnt) as [x2| |]; cbn [bind]; [|done..].
    destruct (x2 =? -1); cbn [bind]; [|done].
    by destruct (setitem l2 cnt g2).
  - destruct (getitem l2 cnt) as [x2| |]; cbn [bind]; [|done..].
    destruct (x2 =? -1); cbn [bind]; [|done].
    by destruct (setitem l2 cnt g2).
Qed.

Lemma length_mark (l : list Z) : ∀ gv, length (mark gv l) = length l.
Proof.
  induction l as [|x l IH]; intros gv; simpl; [done|].
  destruct (x =? -1); simpl; by rewrite IH.
Qed.

Lemma mark_snoc (l : list Z) (x : Z) :
  ∀ gv, mark gv (l ++ [x]) = mark gv l ++ [if x =? -1 then gv_after gv l else x].
Proof.
  induction l as [|y l IH]; intros gv; simpl.
  - by destruct (x =? -1).
  - destruct (y =? -1); simpl; by rewrite IH.
Qed.

Lemma gv_after_snoc (l : list Z) (x : Z) :
  ∀ gv, gv_after gv (l ++ [x]) = if x =? -1 then gv_after gv l else gv_after gv l - 1.
Proof.
  induction l as [|y l IH]; intros gv; simpl.
  - by destruct (x =? -1).
  - destruct (y =? -1); simpl; by rewrite IH.
Qed.

(** One half-step on a list whose first [k] entries are already marked. *)
Lemma mark_one_spec (l : list Z) (k : nat) :
  (k < length l)%nat →
  mark_one (mark (-1) (take k l) ++ drop k l) k (gv_after (-1) (take k l)) =
  Ok (mark (-1) (take (S k) l) ++ drop (S k) l, gv_after (-1) (take (S k) l)).
Proof.
  intros Hk. destruct (lookup_lt_is_Some_2 l k Hk) as [x Hx].
  assert (Hlen : length (mark (-1) (take k l)) = k).
  { rewrite length_mark, length_take_le; lia. }
  unfold mark_one, getitem.
  rewrite lookup_app_r by lia. rewrite Hlen, Nat.sub_diag.
  rewrite (drop_S _ _ _ Hx). simpl.
  rewrite (take_S_r _ _ _ Hx), mark_snoc, gv_after_snoc.
  destruct (x =? -1); simpl.
  - unfold setitem. rewrite length_app, Hlen. simpl.
    destruct (Nat.ltb_spec k (k + S (length (drop (S k) l)))); [|lia]. simpl.
    rewrite <- (Nat.add_0_r k) at 1. rewrite <- Hlen at 1.
    rewrite insert_app_r. simpl. by rewrite <- app_assoc.
  - by rewrite <- app_assoc.
Qed.

Lemma mark_gaps_spec (l1 l2 : list Z) :
  length l1 = length l2 →
  mark_gaps l1 l2 =
  Ok (mark (-1) l1, mark (-1) l2, gv_after (-1) l1, gv_after (-1) l2).
Proof.
  intros Hlen. unfold mark_gaps.
  destruct (for_range_inv mark_step
    (fun k st => st = (mark (-1) (take k l1) ++ drop k l1,
                       mark (-1) (take k l2) ++ drop k l2,
                       gv_after (-1) (take k l1), gv_after (-1) (take k l2)))
    (length l1) 0%nat (l1, l2, -1, -1)) as (st & -> & ->).
  - by rewrite !take_0, !drop_0.
  - intros k st Hk ->. rewrite mark_step_eq.
    rewrite mark_one_spec by lia. cbn [bind].
    rewrite mark_one_spec by lia. cbn [bind]. eauto.
  - simpl. rewrite (take_ge l1), (drop_ge l1) by lia.
    rewrite (take_ge l2), (drop_ge l2) by lia.
    by rewrite !app_nil_r.
Qed.

(** ** The finished alignment *)

Lemma trace_final (s : list ascii) (i : nat) (cs : list ascii) (ix : list Z) :
  trace_ok s i cs ix →
  final_ok s i cs (mark (-1) ix) ∧ gv_after (-1) ix = - (Z.of_nat i + 1).
Proof.
  induction 1 as [|i cs ix _ [IH1 IH2]|i c cs ix Hc _ [IH1 IH2]].
  - split; [constructor|done].
  - rewrite mark_snoc, gv_after_snoc. simpl. rewrite IH2. split; [by constructor|done].
  - rewrite mark_snoc, gv_after_snoc.
    destruct (Z.eqb_spec (Z.of_nat i) (-1)); [lia|].
    split; [by constructor|lia].
Qed.

Lemma trace_ok_length (s : list ascii) (i : nat) (cs : list ascii) (ix : list Z) :
  trace_ok s i cs ix → length cs = length ix.
Proof. induction 1; rewrite ?length_app; simpl; lia. Qed.

Lemma final_ok_length (s : list ascii) (i : nat) (cs : list ascii) (ix : list Z) :
  final_ok s i cs ix → length cs = length ix.
Proof. induction 1; rewrite ?length_app; simpl; lia. Qed.

(** A non-negative entry [k] sits under the symbol [s[k]]. *)
Lemma final_ok_base (s : list ascii) (i : nat) (cs : list ascii) (ix : list Z) :
  final_ok s i cs ix →
  ∀ c k, ix !! c = Some k → 0 ≤ k →
    (Z.to_nat k < i)%nat ∧ is_Some (s !! Z.to_nat k) ∧ cs !! c = s !! Z.to_nat k.
Proof.
  induction 1 as [|i cs ix H IH|i a cs ix Ha H IH]; intros c k Hc Hk.
  - by rewrite lookup_nil in Hc.
  - pose proof (final_ok_length _ _ _ _ H) as Hlen.
    apply lookup_snoc_Some in Hc as [[Hlt Hc]|[_ <-]]; [|lia].
    destruct (IH c k Hc Hk) as (? & ? & E).
    split; [done|]. split; [done|]. by rewrite lookup_app_l by lia.
  - pose proof (final_ok_length _ _ _ _ H) as Hlen.
    apply lookup_snoc_Some in Hc as [[Hlt Hc]|[-> <-]].
    + destruct (IH c k Hc Hk) as (? & ? & E).
      split; [lia|]. split; [done|]. by rewrite lookup_app_l by lia.
    + rewrite Nat2Z.id, Ha. split; [lia|]. split; [done|].
      rewrite <- Hlen. by apply list_lookup_middle.
Qed.

(** A negative entry sits under the gap character. *)
Lemma final_ok_gap (s : list ascii) (i : nat) (cs : list ascii) (ix : list Z) :
  final_ok s i cs ix →
  ∀ c v, ix !! c = Some v → v < 0 → cs !! c = Some "-"%char.
Proof.
  induction 1 as [|i cs ix H IH|i a cs ix Ha H IH]; intros c v Hc Hv.
  - by rewrite lookup_nil in Hc.
  - pose proof (final_ok_length _ _ _ _ H) as Hlen.
    apply lookup_snoc_Some in Hc as [[Hlt Hc]|[-> _]].
    + rewrite lookup_app_l by lia. eauto.
    + rewrite <- Hlen. by apply list_lookup_middle.
  - pose proof (final_ok_length _ _ _ _ H) as Hlen.
    apply lookup_snoc_Some in Hc as [[Hlt Hc]|[_ <-]]; [|lia].
    rewrite lookup_app_l by lia. eauto.
Qed.

(** The non-negative entries are [0, 1, ..., i-1], in this order. *)
Lemma final_ok_filter (s : list ascii) (i : nat) (cs : list ascii) (ix : list Z) :
  final_ok s i cs ix →
  filter (fun x => 0 ≤ x) ix = Z.of_nat <$> seq 0 i.
Proof.
  induction 1 as [|i cs ix H IH|i a cs ix Ha H IH].
  - done.
  - rewrite filter_app, IH, filter_cons_False by lia. by rewrite filter_nil, app_nil_r.
  - rewrite filter_app, IH, filter_cons_True by lia.
    by rewrite filter_nil, seq_S, fmap_app.
Qed.

Lemma final_ok_sentinels (s : list ascii) (i : nat) (cs : list ascii) (ix : list Z) :
  final_ok s i cs ix → sentinels_ok i ix.
Proof.
  induction 1 as [|i cs ix H [IH1 IH2]|i a cs ix Ha H [IH1 IH2]].
  - split; [intros c v w Hc; by rewrite lookup_nil in Hc|done].
  - split.
    + intros c v w Hc Hs Hv.
      apply lookup_snoc_Some in Hs as [[Hlt Hs]|[Hc' <-]].
      * rewrite lookup_app_l in Hc by lia. eauto.
      * rewrite lookup_app_l in Hc by lia.
        assert (last ix = Some v) as Hl.
        { rewrite last_lookup. rewrite <- Hc'. simpl. done. }
        specialize (IH2 v Hl Hv). split; lia.
    + intros v Hl Hv. rewrite last_snoc in Hl. congruence.
  - split.
    + intros c v w Hc Hs Hv.
      apply lookup_snoc_Some in Hs as [[Hlt Hs]|[Hc' <-]].
      * rewrite lookup_app_l in Hc by lia. eauto.
      * rewrite lookup_app_l in Hc by lia.
        assert (last ix = Some v) as Hl.
        { rewrite last_lookup. rewrite <- Hc'. simpl. done. }
        specialize (IH2 v Hl Hv). split; lia.
    + intros v Hl Hv. rewrite last_snoc in Hl. injection Hl as <-. lia.
Qed.

Lemma sentinels_run_end (len : nat) (ix : list Z) (d : nat) (v : Z) :
  sentinels_ok len ix → ix !! d = Some v → v < 0 → run_sentinel len ix d v.
Proof.
  intros [Hadj Hlast] Hd Hv. unfold run_sentinel.
  destruct (ix !! S d) as [w|] eqn:Hw.
  - intros Hw0. by apply (Hadj d v w).
  - apply Hlast; [|done]. rewrite last_lookup.
    apply lookup_lt_Some in Hd as Hlt. apply lookup_ge_None in Hw.
    by replace (pred (length ix)) with d by lia.
Qed.

(** All the sentinels of a run are the same value, the one that the end of
    the run calls for. *)
Lemma sentinels_run (len : nat) (ix : list Z) (c : nat) :
  sentinels_ok len ix →
  ∀ k, gap_run ix c (c + k) →
    ∃ v, (∀ e, (c ≤ e ≤ c + k)%nat → ix !! e = Some v) ∧ v < 0 ∧
         run_sentinel len ix (c + k) v.
Proof.
  intros Hs. induction k as [|k IH]; intros [_ Hrun].
  - destruct (Hrun c ltac:(lia)) as (v & Hc & Hv).
    exists v. rewrite Nat.add_0_r. split; [|split; [done|]].
    + intros e He. by replace e with c by lia.
    + by apply sentinels_run_end.
  - destruct IH as (v & Hall & Hv & _).
    { split; [lia|]. intros e He. apply Hrun. lia. }
    destruct (Hrun (c + S k)%nat ltac:(lia)) as (w & Hw & Hw0).
    assert (w = v) as ->.
    { destruct Hs as [Hadj _].
      apply (Hadj (c + k)%nat v w); [apply Hall; lia| |done..].
      by replace (S (c + k)) with (c + S k)%nat by lia. }
    exists v. split; [|split; [done|]].
    + intros e He. destruct (decide (e = c + S k)%nat) as [->|]; [done|].
      apply Hall. lia.
    + by apply sentinels_run_end.
Qed.

(** ** The method as a whole *)

Lemma list_of_join (cs : list ascii) : list_ascii_of_string (join cs) = cs.
Proof. apply list_ascii_of_string_of_list_ascii. Qed.

(** [doAlignment] raises [KeyError] when the fill reads a character outside
    the table, and otherwise returns an object whose aligned sequences and
    index lists are finished alignments of the two input sequences. *)
Lemma doAlignment_spec (self : PairwiseAlignment) :
  if all_good self
  then ∃ self', doAlignment self = Ok self' ∧
    gapp self' = gapp self ∧ seq1 self' = seq1 self ∧ seq2 self' = seq2 self ∧
    final_ok (list_ascii_of_string (seq1 self)) (len (seq1 self))
      (list_ascii_of_string (seq1aligned self')) (seq1indexed self') ∧
    final_ok (list_ascii_of_string (seq2 self)) (len (seq2 self))
      (list_ascii_of_string (seq2aligned self')) (seq2indexed self') ∧
    length (seq1indexed self') = length (seq2indexed self')
  else doAlignment self = Raise KeyError.
Proof.
  unfold doAlignment.
  destruct (init_tracebk_spec (len (seq1 self)) (len (seq2 self))) as (tb0 & -> & Hd0 & Hb0).
  cbn [bind]. pose proof (fill_spec self tb0 Hd0 Hb0) as Hfill.
  destruct (all_good self); [|by rewrite Hfill].
  destruct Hfill as ([sc tb] & -> & Hdsc & Hdtb & Hb & _). simpl in Hdsc, Hdtb, Hb.
  cbn [bind].
  destruct (grid_get_lt _ _ sc (len (seq1 self)) (len (seq2 self)) Hdsc) as [sco ->]; [lia..|].
  cbn [bind].
  destruct (traceback_spec self tb Hdtb Hb (len (seq1 self) + len (seq2 self))
              (len (seq1 self)) (len (seq2 self)) [] [] [] [])
    as (a1 & a2 & y1 & y2 & -> & T1 & T2 & Hlen); [lia..|].
  cbn [bind app].
  pose proof (trace_ok_length _ _ _ _ T1) as L1.
  pose proof (trace_ok_length _ _ _ _ T2) as L2.
  rewrite !length_reverse in L1, L2.
  rewrite mark_gaps_spec by (rewrite !length_reverse; lia).
  cbn [bind]. eexists. split; [done|]. simpl.
  rewrite !list_of_join.
  apply trace_final in T1 as [F1 _]. apply trace_final in T2 as [F2 _].
  repeat split; [done..|].
  rewrite !length_mark, !length_reverse. lia.
Qed.

(** The [seq1len + seq2len] iterations of fuel given to the traceback loop
    are enough: the method returns or raises. *)
Lemma doAlignment_total (self : PairwiseAlignment) : doAlignment self ≠ OutOfFuel.
Proof.
  pose proof (doAlignment_spec self) as H.
  destruct (all_good self); [destruct H as (? & -> & _)|rewrite H]; discriminate.
Qed.

(** * The claims *)

(** ** C1: the end-gap waiver *)

(** C1, as stated, fails.  With seq1 = "AC" and seq2 = "A" the first cell
    that the fill visits is (1, 1), in the last column ([j = seq2len]) but
    not in the last row ([i <> seq1len]); the grid is still all zero.  There
    the 'up' subscore keeps the gap penalty and the 'left' subscore has it
    waived, the opposite of the claim. *)
Lemma C1_waiver_swapped_counterexample :
  let self := setSequences init "AC" "A" in
  let scores := grid_new (S (len (seq1 self))) (S (len (seq2 self))) 0 in
  candidates self scores 1 1 = Ok (6, -6, 0) ∧
  grid_get scores 1 0 = Ok 0 ∧ grid_get scores 0 1 = Ok 0 ∧
  ¬ (∀ sdiag sup sleft up left,
       candidates self scores 1 1 = Ok (sdiag, sup, sleft) →
       grid_get scores 1 0 = Ok up → grid_get scores 0 1 = Ok left →
       (sup = up ↔ 1%nat = len (seq2 self)) ∧
       (sleft = left ↔ 1%nat = len (seq1 self))).
Proof.
  cbv zeta. split; [reflexivity|]. split; [reflexivity|]. split; [reflexivity|].
  intros H.
  destruct (H 6 (-6) 0 0 0 eq_refl eq_refl eq_refl) as [[_ Hup] _].
  specialize (Hup eq_refl). discriminate.
Qed.

(** C1, amended: at every cell, the 'up' subscore is [scores[i][j-1]] plus
    the gap penalty, waived exactly when [i = seq1len] (last row), and the
    'left' subscore is [scores[i-1][j]] plus the gap penalty, waived exactly
    when [j = seq2len] (last column). *)
Theorem C1_end_gap_waiver (self : PairwiseAlignment) (scores : list (list Z))
    (i j : nat) (sdiag sup sleft : Z) :
  candidates self scores i j = Ok (sdiag, sup, sleft) →
  ∃ up left,
    grid_get scores i (j - 1) = Ok up ∧
    grid_get scores (i - 1) j = Ok left ∧
    sup = (if (i =? len (seq1 self))%nat then up else up + gapp self) ∧
    sleft = (if (j =? len (seq2 self))%nat then left else left + gapp self) ∧
    (gapp self ≠ 0 →
       (sup = up ↔ i = len (seq1 self)) ∧ (sleft = left ↔ j = len (seq2 self))).
Proof.
  unfold candidates. intros H.
  apply bind_Ok in H as (d & _ & H).
  apply bind_Ok in H as (c1 & _ & H).
  apply bind_Ok in H as (r & _ & H).
  apply bind_Ok in H as (c2 & _ & H).
  apply bind_Ok in H as (s & _ & H).
  apply bind_Ok in H as (u & Hu & H).
  apply bind_Ok in H as (l & Hl & H).
  injection H as _ <- <-. exists u, l.
  split; [done|]. split; [done|].
  destruct (Nat.eqb_spec i (len (seq1 self))), (Nat.eqb_spec j (len (seq2 self)));
    (split; [lia|]); (split; [lia|]); intros Hg; split; split; intros; try lia; try done.
Qed.

Lemma C1_end_gap_waiver_witness :
  candidates (setSequences init "AC" "A") (grid_new 3 2 0) 1 1 = Ok (6, -6, 0) ∧
  ∃ up left,
    grid_get (grid_new 3 2 0) 1 (1 - 1) = Ok up ∧
    grid_get (grid_new 3 2 0) (1 - 1) 1 = Ok left ∧
    -6 = (if (1 =? len (seq1 (setSequences init "AC" "A")))%nat
          then up else up + gapp (setSequences init "AC" "A")) ∧
    0 = (if (1 =? len (seq2 (setSequences init "AC" "A")))%nat
         then left else left + gapp (setSequences init "AC" "A")) ∧
    (gapp (setSequences init "AC" "A") ≠ 0 →
       (-6 = up ↔ 1%nat = len (seq1 (setSequences init "AC" "A"))) ∧
       (0 = left ↔ 1%nat = len (seq2 (setSequences init "AC" "A")))).
Proof.
  split; [reflexivity|].
  apply (C1_end_gap_waiver (setSequences init "AC" "A") (grid_new 3 2 0) 1 1 6 (-6) 0).
  reflexivity.
Defined.

(** ** C4: the maximum and the tie-break *)

Lemma choose_spec (sdiag sup sleft : Z) :
  (choose sdiag sup sleft).2 = Z.max sdiag (Z.max sup sleft) ∧
  ((choose sdiag sup sleft).1 = Td ↔ sdiag >= sup ∧ sdiag >= sleft) ∧
  ((choose sdiag sup sleft).1 = Tu ↔ sup > sdiag ∧ sup >= sleft) ∧
  ((choose sdiag sup sleft).1 = Tl ↔ sleft > sdiag ∧ sleft > sup).
Proof.
  unfold choose.
  destruct (Z.geb_spec sdiag sup), (Z.geb_spec sdiag sleft),
    (Z.geb_spec sup sdiag), (Z.geb_spec sup sleft); simpl;
    (split; [lia|]); repeat split; intros; try lia; try done.
Qed.

(** C4: once the fill has run, every cell [(i, j)] with [1 <= i <= n] and
    [1 <= j <= m] holds the maximum of its three subscores, and its
    direction is 'd' when the diagonal ties or beats both others, otherwise
    'u' when up ties or beats left, otherwise 'l'. *)
Theorem C4_max_and_tie_break (self : PairwiseAlignment)
    (tracebk0 : list (list tbval)) (scores : list (list Z))
    (tracebk : list (list tbval)) (i j : nat) :
  init_tracebk (len (seq1 self)) (len (seq2 self)) = Ok tracebk0 →
  fill self (grid_new (S (len (seq1 self))) (S (len (seq2 self))) 0, tracebk0)
    = Ok (scores, tracebk) →
  (1 ≤ i ≤ len (seq1 self))%nat → (1 ≤ j ≤ len (seq2 self))%nat →
  ∃ sdiag sup sleft best dir,
    candidates self scores i j = Ok (sdiag, sup, sleft) ∧
    grid_get scores i j = Ok best ∧
    grid_get tracebk i j = Ok dir ∧
    best = Z.max sdiag (Z.max sup sleft) ∧
    (dir = Td ↔ sdiag >= sup ∧ sdiag >= sleft) ∧
    (dir = Tu ↔ sup > sdiag ∧ sup >= sleft) ∧
    (dir = Tl ↔ sleft > sdiag ∧ sleft > sup).
Proof.
  intros H0 Hfill Hi Hj.
  destruct (init_tracebk_spec (len (seq1 self)) (len (seq2 self))) as (tb0 & E & Hd0 & Hb0).
  rewrite H0 in E. injection E as <-.
  pose proof (fill_spec self tracebk0 Hd0 Hb0) as Hspec.
  destruct (all_good self); [|congruence].
  destruct Hspec as (st' & E & _ & _ & _ & Hcells).
  rewrite Hfill in E. injection E as <-.
  destruct (Hcells i j) as (d & u & l & Hc & Ht & Hs); [unfold processed; lia|].
  simpl in Hc, Ht, Hs.
  destruct (choose_spec d u l) as (Hmax & Hd & Hu & Hl).
  exists d, u, l, (choose d u l).2, (choose d u l).1. done.
Qed.

Lemma C4_max_and_tie_break_witness :
  init_tracebk (len (seq1 (setSequences init "A" "A")))
    (len (seq2 (setSequences init "A" "A"))) = Ok [[T0; Tu]; [Tl; T0]] ∧
  fill (setSequences init "A" "A")
    (grid_new (S (len (seq1 (setSequences init "A" "A"))))
       (S (len (seq2 (setSequences init "A" "A")))) 0, [[T0; Tu]; [Tl; T0]])
    = Ok ([[0; 0]; [0; 6]], [[T0; Tu]; [Tl; Td]]) ∧
  (1 ≤ 1 ≤ len (seq1 (setSequences init "A" "A")))%nat ∧
  (1 ≤ 1 ≤ len (seq2 (setSequences init "A" "A")))%nat ∧
  ∃ sdiag sup sleft best dir,
    candidates (setSequences init "A" "A") [[0; 0]; [0; 6]] 1 1 = Ok (sdiag, sup, sleft) ∧
    grid_get [[0; 0]; [0; 6]] 1 1 = Ok best ∧
    grid_get [[T0; Tu]; [Tl; Td]] 1 1 = Ok dir ∧
    best = Z.max sdiag (Z.max sup sleft) ∧
    (dir = Td ↔ sdiag >= sup ∧ sdiag >= sleft) ∧
    (dir = Tu ↔ sup > sdiag ∧ sup >= sleft) ∧
    (dir = Tl ↔ sleft > sdiag ∧ sleft > sup).
Proof.
  split; [reflexivity|]. split; [reflexivity|].
  split; [unfold len; simpl; lia|]. split; [unfold len; simpl; lia|].
  apply (C4_max_and_tie_break (setSequences init "A" "A")
           [[T0; Tu]; [Tl; T0]] [[0; 0]; [0; 6]] [[T0; Tu]; [Tl; Td]] 1 1);
    [reflexivity|reflexivity|unfold len; simpl; lia|unfold len; simpl; lia].
Defined.

(** ** C2: the sentinels of a run of gaps *)

(** C2, as stated, fails.  With an empty seq1 and seq2 = "ACGT" the index list
    of sequence 1 is one run of four gaps, and its sentinels are all [-1]:
    they do not decrease along the run. *)
Lemma C2_equal_sentinels_counterexample :
  ∃ self', doAlignment (setSequences init EmptyString "ACGT") = Ok self' ∧
    seq1indexed self' = [-1; -1; -1; -1] ∧
    ¬ (∀ c v w, seq1indexed self' !! c = Some v → seq1indexed self' !! S c = Some w →
         v < 0 → w < 0 → w < v).
Proof.
  eexists. split; [reflexivity|]. split; [reflexivity|].
  intros H. specialize (H 0%nat (-1) (-1) eq_refl eq_refl). lia.
Qed.

(** C2, amended: after [doAlignment], within every run of consecutive gap
    columns of one sequence all the sentinels of the index list are equal:
    they are [-(k+1)] when the run is followed by the base of index [k] of
    that sequence, and [-(len+1)], for the length [len] of the sequence,
    when the run ends in the last column. *)
Theorem C2_run_sentinels_equal (self self' : PairwiseAlignment) (c d : nat) :
  doAlignment self = Ok self' →
  (gap_run (seq1indexed self') c d →
     ∃ v, (∀ e, (c ≤ e ≤ d)%nat → seq1indexed self' !! e = Some v) ∧ v < 0 ∧
          run_sentinel (len (seq1 self)) (seq1indexed self') d v) ∧
  (gap_run (seq2indexed self') c d →
     ∃ v, (∀ e, (c ≤ e ≤ d)%nat → seq2indexed self' !! e = Some v) ∧ v < 0 ∧
          run_sentinel (len (seq2 self)) (seq2indexed self') d v).
Proof.
  intros H. pose proof (doAlignment_spec self) as Hs.
  destruct (all_good self); [|congruence].
  destruct Hs as (st & E & _ & _ & _ & F1 & F2 & _).
  rewrite H in E. injection E as <-.
  apply final_ok_sentinels in F1, F2.
  split; intros Hrun; pose proof (proj1 Hrun) as Hcd;
    replace d with (c + (d - c))%nat in * by lia; by eapply sentinels_run.
Qed.

Lemma C2_run_sentinels_equal_witness :
  doAlignment (setSequences init "AACC" "CCAA") =
    Ok {| gapp := -6; seq1 := "AACC"; seq2 := "CCAA";
          seq1aligned := "AACC--"; seq2aligned := "--CCAA";
          seq1indexed := [0; 1; 2; 3; -5; -5];
          seq2indexed := [-1; -1; 0; 1; 2; 3];
          score := 12 |} ∧
  (gap_run [0; 1; 2; 3; -5; -5] 4 5 ∧
   ∃ v, (∀ e, (4 ≤ e ≤ 5)%nat → [0; 1; 2; 3; -5; -5] !! e = Some v) ∧ v < 0 ∧
        run_sentinel 4 [0; 1; 2; 3; -5; -5] 5 v).
Proof.
  split; [reflexivity|].
  assert (gap_run [0; 1; 2; 3; -5; -5] 4 5) as Hrun.
  { split; [lia|]. intros e He.
    destruct (decide (e = 4%nat)) as [->|]; [exists (-5); split; [reflexivity|lia]|].
    assert (e = 5%nat) as -> by lia. exists (-5). split; [reflexivity|lia]. }
  split; [exact Hrun|].
  apply (C2_run_sentinels_equal (setSequences init "AACC" "CCAA")
    {| gapp := -6; seq1 := "AACC"; seq2 := "CCAA";
       seq1aligned := "AACC--"; seq2aligned := "--CCAA";
       seq1indexed := [0; 1; 2; 3; -5; -5];
       seq2indexed := [-1; -1; 0; 1; 2; 3];
       score := 12 |} 4 5 eq_refl).
  exact Hrun.
Defined.

(** ** C3: the scenario "ACGT" against "AGT" *)

(** C3: with seq1 = "ACGT", seq2 = "AGT" and the default gap penalty -6,
    the aligned sequences are "ACGT" and "A-GT" and the score is 12. *)
Theorem C3_ACGT_AGT :
  getGapPenalty init = -6 ∧
  ∃ self', doAlignment (setSequences init "ACGT" "AGT") = Ok self' ∧
    getAlignedSequences self' = ("ACGT", "A-GT")%string ∧
    getAlignedSeqIndexes self' = ([0; 1; 2; 3], [0; -2; 1; 2]) ∧
    getAlignmentScore self' = 12.
Proof. split; [reflexivity|]. eexists. repeat split; reflexivity. Qed.

(** ** C5: [setSequences] and the previous results *)

(** C5, as stated, fails.  After aligning "A" with "A", a call of
    [setSequences] with "C" and "G" leaves the results of that run in place:
    the accessors still return them. *)
Lemma C5_results_kept_counterexample :
  ∃ self', doAlignment (setSequences init "A" "A") = Ok self' ∧
    getAlignedSequences self' = ("A", "A")%string ∧
    getAlignedSeqIndexes self' = ([0], [0]) ∧
    getAlignmentScore self' = 6 ∧
    getSequences (setSequences self' "C" "G") = ("C", "G")%string ∧
    getAlignedSequences (setSequences self' "C" "G") = ("A", "A")%string ∧
    getAlignedSeqIndexes (setSequences self' "C" "G") = ([0], [0]) ∧
    getAlignmentScore (setSequences self' "C" "G") = 6.
Proof. eexists. split; [reflexivity|]. repeat split; reflexivity. Qed.

(** C5, amended: [setSequences] stores the two input sequences and changes
    nothing else; until the next [doAlignment] the accessors for the aligned
    sequences, the index lists and the score return what they returned
    before the call. *)
Theorem C5_setSequences_frame (self : PairwiseAlignment) (sequence1 sequence2 : string) :
  getSequences (setSequences self sequence1 sequence2) = (sequence1, sequence2) ∧
  getAlignedSequences (setSequences self sequence1 sequence2) = getAlignedSequences self ∧
  getAlignedSeqIndexes (setSequences self sequence1 sequence2) = getAlignedSeqIndexes self ∧
  getAlignmentScore (setSequences self sequence1 sequence2) = getAlignmentScore self ∧
  getGapPenalty (setSequences self sequence1 sequence2) = getGapPenalty self.
Proof. repeat split. Qed.

(** ** C6: [doAlignment] on a fresh object *)

(** C6: on a freshly constructed object [doAlignment] raises nothing; both
    sequences are empty, and so are the aligned sequences and the index
    lists; the score is 0. *)
Theorem C6_fresh_object :
  getSequences init = (EmptyString, EmptyString) ∧
  ∃ self', doAlignment init = Ok self' ∧
    getAlignedSequences self' = (EmptyString, EmptyString) ∧
    getAlignedSeqIndexes self' = ([], []) ∧
    getAlignmentScore self' = 0.
Proof. split; [reflexivity|]. eexists. repeat split; reflexivity. Qed.

(** ** C7: characters outside the score table *)

(** C7, as stated, fails.  "X" is not a key of the score table, yet with
    seq1 = "X" and an empty seq2 the method raises nothing: the fill visits no
    cell, and the result aligns "X" with a gap. *)
Lemma C7_unchecked_symbol_counterexample :
  is_key "X" = false ∧
  ∃ self', doAlignment (setSequences init "X" EmptyString) = Ok self' ∧
    getAlignedSequences self' = ("X", "-")%string ∧
    getAlignmentScore self' = 0.
Proof. split; [reflexivity|]. eexists. repeat split; reflexivity. Qed.

(** C7, amended: if both sequences are non-empty and one of them contains a
    character that is not a key of the score table, the grid fill raises
    [KeyError], and so does [doAlignment]. *)
Theorem C7_invalid_symbol (self : PairwiseAlignment) :
  len (seq1 self) ≠ 0%nat → len (seq2 self) ≠ 0%nat →
  valid (seq1 self) && valid (seq2 self) = false →
  (∃ tracebk, init_tracebk (len (seq1 self)) (len (seq2 self)) = Ok tracebk ∧
     fill self (grid_new (S (len (seq1 self))) (S (len (seq2 self))) 0, tracebk)
       = Raise KeyError) ∧
  doAlignment self = Raise KeyError.
Proof.
  intros Hn Hm Hv.
  assert (all_good self = false) as Hg.
  { destruct (all_good self) eqn:E; [|done].
    apply all_good_iff in E as [?|[?|[E1 E2]]]; [done..|].
    by rewrite E1, E2 in Hv. }
  split.
  - destruct (init_tracebk_spec (len (seq1 self)) (len (seq2 self))) as (tb0 & E & Hd0 & Hb0).
    exists tb0. split; [done|].
    pose proof (fill_spec self tb0 Hd0 Hb0) as H. by rewrite Hg in H.
  - pose proof (doAlignment_spec self) as H. by rewrite Hg in H.
Qed.

Lemma C7_invalid_symbol_witness :
  len (seq1 (setSequences init "AX" "A")) ≠ 0%nat ∧
  len (seq2 (setSequences init "AX" "A")) ≠ 0%nat ∧
  valid (seq1 (setSequences init "AX" "A")) && valid (seq2 (setSequences init "AX" "A")) = false ∧
  (∃ tracebk, init_tracebk (len (seq1 (setSequences init "AX" "A")))
                (len (seq2 (setSequences init "AX" "A"))) = Ok tracebk ∧
     fill (setSequences init "AX" "A")
       (grid_new (S (len (seq1 (setSequences init "AX" "A"))))
          (S (len (seq2 (setSequences init "AX" "A")))) 0, tracebk)
       = Raise KeyError) ∧
  doAlignment (setSequences init "AX" "A") = Raise KeyError.
Proof.
  split; [discriminate|]. split; [discriminate|]. split; [reflexivity|].
  apply (C7_invalid_symbol (setSequences init "AX" "A")); [discriminate|discriminate|reflexivity].
Defined.

(** ** C8: an empty sequence against "ACGT" *)

(** C8: with an empty seq1 and seq2 = "ACGT", the fill loop runs over no row and
    leaves the grids as they were, the score is the initial 0, the traceback
    matrix is one row of 'u' from column 1 on, so that every step of the
    traceback is an 'up' move, and the aligned sequences are "----" and
    "ACGT". *)
Theorem C8_empty_against_ACGT :
  let self := setSequences init EmptyString "ACGT" in
  seq 1 (len (seq1 self)) = [] ∧
  init_tracebk (len (seq1 self)) (len (seq2 self)) = Ok [[T0; Tu; Tu; Tu; Tu]] ∧
  fill self (grid_new 1 5 0, [[T0; Tu; Tu; Tu; Tu]]) =
    Ok (grid_new 1 5 0, [[T0; Tu; Tu; Tu; Tu]]) ∧
  ∃ self', doAlignment self = Ok self' ∧
    getAlignedSequences self' = ("----", "ACGT")%string ∧
    getAlignedSeqIndexes self' = ([-1; -1; -1; -1], [0; 1; 2; 3]) ∧
    getAlignmentScore self' = 0.
Proof.
  cbv zeta. repeat (split; [reflexivity|]). eexists. repeat split; reflexivity.
Qed.

(** ** C9: the index round trip *)

(** C9: after [doAlignment], wherever the index list of sequence 1 holds a
    non-negative [k], the aligned sequence 1 holds [seq1[k]] in the same
    column; likewise for sequence 2. *)
Theorem C9_index_round_trip (self self' : PairwiseAlignment) :
  doAlignment self = Ok self' →
  (∀ (c : nat) (k : Z), seq1indexed self' !! c = Some k → 0 <= k →
     ∃ a, str_getitem (seq1aligned self') c = Ok a ∧ str_getitemZ (seq1 self) k = Ok a) ∧
  (∀ (c : nat) (k : Z), seq2indexed self' !! c = Some k → 0 <= k →
     ∃ a, str_getitem (seq2aligned self') c = Ok a ∧ str_getitemZ (seq2 self) k = Ok a).
Proof.
  intros H. pose proof (doAlignment_spec self) as Hs.
  destruct (all_good self); [|congruence].
  destruct Hs as (st & E & _ & _ & _ & F1 & F2 & _).
  rewrite H in E. injection E as <-.
  split; intros c k Hc Hk.
  - destruct (final_ok_base _ _ _ _ F1 c k Hc Hk) as (Hlt & [a Ha] & Hcs).
    exists a. unfold str_getitem, str_getitemZ.
    rewrite <- (Z2Nat.id k) at 1 by lia. rewrite getitemZ_of_nat.
    rewrite !getitem_Ok. by rewrite Hcs.
  - destruct (final_ok_base _ _ _ _ F2 c k Hc Hk) as (Hlt & [a Ha] & Hcs).
    exists a. unfold str_getitem, str_getitemZ.
    rewrite <- (Z2Nat.id k) at 1 by lia. rewrite getitemZ_of_nat.
    rewrite !getitem_Ok. by rewrite Hcs.
Qed.

Lemma C9_index_round_trip_witness :
  doAlignment (setSequences init "ACGT" "AGT") =
    Ok {| gapp := -6; seq1 := "ACGT"; seq2 := "AGT";
          seq1aligned := "ACGT"; seq2aligned := "A-GT";
          seq1indexed := [0; 1; 2; 3]; seq2indexed := [0; -2; 1; 2];
          score := 12 |} ∧
  ([0; 1; 2; 3] !! 1%nat = Some 1 ∧ 0 <= 1 ∧
   ∃ a, str_getitem "ACGT" 1 = Ok a ∧ str_getitemZ "ACGT" 1 = Ok a) ∧
  ([0; -2; 1; 2] !! 2%nat = Some 1 ∧ 0 <= 1 ∧
   ∃ a, str_getitem "A-GT" 2 = Ok a ∧ str_getitemZ "AGT" 1 = Ok a).
Proof.
  split; [reflexivity|].
  destruct (C9_index_round_trip (setSequences init "ACGT" "AGT")
    {| gapp := -6; seq1 := "ACGT"; seq2 := "AGT";
       seq1aligned := "ACGT"; seq2aligned := "A-GT";
       seq1indexed := [0; 1; 2; 3]; seq2indexed := [0; -2; 1; 2];
       score := 12 |} eq_refl) as [H1 H2].
  split.
  - split; [reflexivity|]. split; [lia|]. apply (H1 1%nat 1 eq_refl). lia.
  - split; [reflexivity|]. split; [lia|]. apply (H2 2%nat 1 eq_refl). lia.
Defined.

(** ** C10: every base in one column, in order *)

(** C10: for input sequences over the alphabet of the score table,
    [doAlignment] returns; the two aligned sequences have the same length,
    which is also the length of both index lists; and the non-negative
    entries of the index list of sequence 1, read left to right, are
    [0, 1, ..., len(seq1)-1], likewise for sequence 2. *)
Theorem C10_bases_in_order (self : PairwiseAlignment) :
  valid (seq1 self) = true → valid (seq2 self) = true →
  ∃ self', doAlignment self = Ok self' ∧
    len (seq1aligned self') = len (seq2aligned self') ∧
    length (seq1indexed self') = len (seq1aligned self') ∧
    length (seq2indexed self') = len (seq2aligned self') ∧
    filter (fun k => 0 <= k) (seq1indexed self') = Z.of_nat <$> seq 0 (len (seq1 self)) ∧
    filter (fun k => 0 <= k) (seq2indexed self') = Z.of_nat <$> seq 0 (len (seq2 self)).
Proof.
  intros V1 V2. pose proof (doAlignment_spec self) as Hs.
  assert (all_good self = true) as Hg by (apply all_good_iff; auto).
  rewrite Hg in Hs.
  destruct Hs as (st & E & _ & _ & _ & F1 & F2 & Hlen).
  exists st. split; [done|].
  pose proof (final_ok_length _ _ _ _ F1) as L1.
  pose proof (final_ok_length _ _ _ _ F2) as L2.
  unfold len. repeat split; try lia; by eapply final_ok_filter.
Qed.

Lemma C10_bases_in_order_witness :
  valid (seq1 (setSequences init "AACC" "CCAA")) = true ∧
  valid (seq2 (setSequences init "AACC" "CCAA")) = true ∧
  ∃ self', doAlignment (setSequences init "AACC" "CCAA") = Ok self' ∧
    len (seq1aligned self') = len (seq2aligned self') ∧
    length (seq1indexed self') = len (seq1aligned self') ∧
    length (seq2indexed self') = len (seq2aligned self') ∧
    filter (fun k => 0 <= k) (seq1indexed self') =
      Z.of_nat <$> seq 0 (len (seq1 (setSequences init "AACC" "CCAA"))) ∧
    filter (fun k => 0 <= k) (seq2indexed self') =
      Z.of_nat <$> seq 0 (len (seq2 (setSequences init "AACC" "CCAA"))).
Proof.
  split; [reflexivity|]. split; [reflexivity|].
  apply (C10_bases_in_order (setSequences init "AACC" "CCAA")); reflexivity.
Defined.

(** * Further properties of the class *)

(** ** More on the loops and the fill *)

Lemma for_each_preserves {A S : Type} (body : A → S → outcome S) (P : S → Prop)
    (l : list A) :
  (∀ x s s', x ∈ l → body x s = Ok s' → P s → P s') →
  ∀ s s', for_each l body s = Ok s' → P s → P s'.
Proof.
  induction l as [|x l IH]; intros Hstep s s' Hrun HP; simpl in Hrun.
  - by injection Hrun as <-.
  - apply bind_Ok in Hrun as (s1 & H1 & Hrest).
    apply (IH (fun y t t' Hy => Hstep y t t' (list_elem_of_further _ _ _ Hy)) s1 s' Hrest).
    eapply Hstep; [apply list_elem_of_here|done..].
Qed.

Lemma for_each_ext {A S : Type} (f g : A → S → outcome S) (l : list A) :
  (∀ x s, f x s = g x s) → ∀ s, for_each l f s = for_each l g s.
Proof.
  intros Hfg. induction l as [|x l IH]; intros s; simpl; [done|].
  rewrite Hfg. destruct (g x s); simpl; [apply IH|done..].
Qed.

(** What the three subscores are made of. *)
Lemma candidates_inv (self : PairwiseAlignment) (scores : list (list Z))
    (i j : nat) (sdiag sup sleft : Z) :
  candidates self scores i j = Ok (sdiag, sup, sleft) →
  ∃ d c1 r c2 s u l,
    grid_get scores (i - 1) (j - 1) = Ok d ∧
    str_getitem (seq1 self) (i - 1) = Ok c1 ∧ dict_get svals c1 = Ok r ∧
    str_getitem (seq2 self) (j - 1) = Ok c2 ∧ dict_get r c2 = Ok s ∧
    grid_get scores i (j - 1) = Ok u ∧ grid_get scores (i - 1) j = Ok l ∧
    sdiag = d + s ∧
    sup = (if (i =? len (seq1 self))%nat then u else u + gapp self) ∧
    sleft = (if (j =? len (seq2 self))%nat then l else l + gapp self).
Proof.
  unfold candidates. intros H.
  apply bind_Ok in H as (d & Hd & H).
  apply bind_Ok in H as (c1 & Hc1 & H).
  apply bind_Ok in H as (r & Hr & H).
  apply bind_Ok in H as (c2 & Hc2 & H).
  apply bind_Ok in H as (s & Hs & H).
  apply bind_Ok in H as (u & Hu & H).
  apply bind_Ok in H as (l & Hl & H).
  injection H as <- <- <-. exists d, c1, r, c2, s, u, l.
  repeat (split; [done|]).
  destruct (i =? len (seq1 self))%nat, (j =? len (seq2 self))%nat; split; lia.
Qed.

Lemma choose_dir (sdiag sup sleft : Z) :
  match (choose sdiag sup sleft).1 with
  | Td => (choose sdiag sup sleft).2 = sdiag
  | Tu => (choose sdiag sup sleft).2 = sup
  | Tl => (choose sdiag sup sleft).2 = sleft
  | T0 => False
  end.
Proof.
  unfold choose.
  destruct ((sdiag >=? sup) && (sdiag >=? sleft)); [done|].
  by destruct ((sup >=? sdiag) && (sup >=? sleft)).
Qed.

Lemma choose_max (sdiag sup sleft : Z) :
  sdiag <= (choose sdiag sup sleft).2 ∧ sup <= (choose sdiag sup sleft).2 ∧
  sleft <= (choose sdiag sup sleft).2.
Proof.
  unfold choose.
  destruct (Z.geb_spec sdiag sup), (Z.geb_spec sdiag sleft),
    (Z.geb_spec sup sdiag), (Z.geb_spec sup sleft); simpl; lia.
Qed.

(** A cell of the fill leaves the first row and the first column of both
    grids alone. *)
Lemma fill_cell_border (self : PairwiseAlignment) (i j : nat)
    (st st' : list (list Z) * list (list tbval)) :
  fill_cell self i j st = Ok st' → (1 ≤ i)%nat → (1 ≤ j)%nat →
  ∀ r c, (r = 0 ∨ c = 0)%nat → grid_get st'.1 r c = grid_get st.1 r c.
Proof.
  destruct st as [sc tb]. unfold fill_cell. intros H Hi Hj r c Hrc.
  apply bind_Ok in H as ([[d u] l] & _ & H).
  destruct (choose d u l) as [dir best].
  apply bind_Ok in H as (tb' & _ & H).
  apply bind_Ok in H as (sc' & Hsc & H).
  injection H as <-. simpl. eapply grid_get_set_ne; [done|lia].
Qed.

Lemma fill_border (self : PairwiseAlignment)
    (st st' : list (list Z) * list (list tbval)) :
  fill self st = Ok st' →
  ∀ r c, (r = 0 ∨ c = 0)%nat → grid_get st'.1 r c = grid_get st.1 r c.
Proof.
  intros H r c Hrc. unfold fill in H.
  refine (for_each_preserves _ (fun s => grid_get s.1 r c = grid_get st.1 r c) _ _ _ _ H eq_refl).
  intros i s s' Hi%list_elem_of_In%in_seq Hrow Hs.
  refine (for_each_preserves _ (fun s => grid_get s.1 r c = grid_get st.1 r c) _ _ _ _ Hrow Hs).
  intros j t t' Hj%list_elem_of_In%in_seq Hcell Ht.
  rewrite <- Ht. eapply fill_cell_border; [done|lia..|done].
Qed.

(** The parts of a run of [doAlignment] that returns. *)
Lemma doAlignment_inv (self self' : PairwiseAlignment) :
  doAlignment self = Ok self' →
  ∃ scores tracebk a1 a2 y1 y2,
    fill_inv self (len (seq1 self)) (len (seq2 self)) (scores, tracebk) ∧
    zero_borders (len (seq1 self)) (len (seq2 self)) scores ∧
    grid_get scores (len (seq1 self)) (len (seq2 self)) = Ok (score self') ∧
    traceback (len (seq1 self) + len (seq2 self)) self tracebk
      (Z.of_nat (len (seq1 self))) (Z.of_nat (len (seq2 self))) ([], [], [], [])
      = Ok (a1, a2, y1, y2) ∧
    length y1 = length y2 ∧
    seq1aligned self' = join (reverse a1) ∧ seq2aligned self' = join (reverse a2) ∧
    seq1indexed self' = mark (-1) (reverse y1) ∧
    seq2indexed self' = mark (-1) (reverse y2).
Proof.
  unfold doAlignment.
  destruct (init_tracebk_spec (len (seq1 self)) (len (seq2 self))) as (tb0 & -> & Hd0 & Hb0).
  cbn [bind]. pose proof (fill_spec self tb0 Hd0 Hb0) as Hfill.
  destruct (all_good self); [|by rewrite Hfill].
  destruct Hfill as ([sc tb] & Hrun & Hinv). rewrite Hrun. cbn [bind].
  pose proof Hinv as (Hdsc & Hdtb & Hb & _). simpl in Hdsc, Hdtb, Hb.
  destruct (grid_get_lt _ _ sc (len (seq1 self)) (len (seq2 self)) Hdsc) as [sco Hsco]; [lia..|].
  rewrite Hsco. cbn [bind].
  destruct (traceback_spec self tb Hdtb Hb (len (seq1 self) + len (seq2 self))
              (len (seq1 self)) (len (seq2 self)) [] [] [] [])
    as (a1 & a2 & y1 & y2 & Htb & T1 & T2 & Hlen); [lia..|].
  rewrite Htb. cbn [bind app].
  pose proof (trace_ok_length _ _ _ _ T1) as L1.
  pose proof (trace_ok_length _ _ _ _ T2) as L2.
  rewrite !length_reverse in L1, L2.
  rewrite mark_gaps_spec by (rewrite !length_reverse; lia).
  cbn [bind]. intros [= <-]. exists sc, tb, a1, a2, y1, y2. simpl.
  split; [done|]. split; [|split; [done|]; split; [done|]; split; [lia|done]].
  intros r c Hrc Hr Hc.
  pose proof (fill_border self _ _ Hrun r c Hrc) as Hz. simpl in Hz.
  rewrite Hz. apply grid_get_new; lia.
Qed.

(** ** The grids after the fill, and the alignments they score *)

Lemma gap_cost_pos (gap_penalty : Z) (len k : nat) :
  (1 ≤ k)%nat →
  gap_cost gap_penalty len k = if (k =? len)%nat then 0 else gap_penalty.
Proof.
  intros Hk. unfold gap_cost. by destruct (Nat.eqb_spec k 0); [lia|].
Qed.

Section filled.
Variable self : PairwiseAlignment.
Local Abbreviation n := (len (seq1 self)).
Local Abbreviation m := (len (seq2 self)).
Variables (scores : list (list Z)) (tracebk : list (list tbval)).
Hypothesis filled : fill_inv self n m (scores, tracebk).
Hypothesis zeros : zero_borders n m scores.

(** An inner cell holds one of its three subscores, the one its direction
    names, and no less than any of them. *)
Lemma cell_facts (i j : nat) :
  (1 ≤ i ≤ n)%nat → (1 ≤ j ≤ m)%nat →
  ∃ a b r s d u l v dir,
    list_ascii_of_string (seq1 self) !! (i - 1)%nat = Some a ∧
    list_ascii_of_string (seq2 self) !! (j - 1)%nat = Some b ∧
    dict_get svals a = Ok r ∧ dict_get r b = Ok s ∧
    grid_get scores (i - 1) (j - 1) = Ok d ∧
    grid_get scores i (j - 1) = Ok u ∧
    grid_get scores (i - 1) j = Ok l ∧
    grid_get scores i j = Ok v ∧ grid_get tracebk i j = Ok dir ∧
    d + s <= v ∧ u + gap_cost (gapp self) n i <= v ∧ l + gap_cost (gapp self) m j <= v ∧
    match dir with
    | Td => v = d + s
    | Tu => v = u + gap_cost (gapp self) n i
    | Tl => v = l + gap_cost (gapp self) m j
    | T0 => False
    end.
Proof.
  intros Hi Hj. destruct filled as (_ & _ & _ & Hcells).
  destruct (Hcells i j) as (sd & su & sl & Hc & Ht & Hs); [unfold processed; lia|].
  simpl in Hc, Ht, Hs.
  apply candidates_inv in Hc
    as (d & a & r & b & s & u & l & Hd & Ha%getitem_Ok & Hr & Hb%getitem_Ok & Hsv & Hu & Hl & -> & -> & ->).
  exists a, b, r, s, d, u, l. eexists _, _.
  repeat (split; [done|]).
  rewrite !gap_cost_pos by lia.
  pose proof (choose_max (d + s)
    (if (i =? n)%nat then u else u + gapp self)
    (if (j =? m)%nat then l else l + gapp self)) as (M1 & M2 & M3).
  pose proof (choose_dir (d + s)
    (if (i =? n)%nat then u else u + gapp self)
    (if (j =? m)%nat then l else l + gapp self)) as Hdir.
  destruct (i =? n)%nat, (j =? m)%nat;
    (split; [lia|]); (split; [lia|]); (split; [lia|]);
    destruct (choose _ _ _).1; lia || done.
Qed.

(** No alignment of two prefixes scores more than the cell of the grid. *)
Lemma alignment_bounded (mk : nat → Z) (i j : nat) (cs1 cs2 : list ascii)
    (x1 x2 : list Z) (t : Z) :
  alignment_of mk self i j cs1 cs2 x1 x2 t →
  (i ≤ n)%nat ∧ (j ≤ m)%nat ∧ ∃ v, grid_get scores i j = Ok v ∧ t <= v.
Proof.
  induction 1 as [|i j a b r s cs1 cs2 x1 x2 t _ (Hi & Hj & v & Hv & Htv) Ha Hb Hr Hs
                  |i j b cs1 cs2 x1 x2 t _ (Hi & Hj & v & Hv & Htv) _ Hb
                  |i j a cs1 cs2 x1 x2 t _ (Hi & Hj & v & Hv & Htv) _ Ha].
  - split; [lia|]. split; [lia|]. exists 0. split; [apply zeros; lia|lia].
  - apply lookup_lt_Some in Ha as Hlta. apply lookup_lt_Some in Hb as Hltb.
    fold (len (seq1 self)) in Hlta. fold (len (seq2 self)) in Hltb.
    split; [lia|]. split; [lia|].
    destruct (cell_facts (S i) (S j)) as (a' & b' & r' & s' & d & u & l & w & dir &
      Ha' & Hb' & Hr' & Hs' & Hd & _ & _ & Hw & _ & Hle & _); [lia..|].
    replace (S i - 1)%nat with i in * by lia. replace (S j - 1)%nat with j in * by lia.
    assert (a' = a) as -> by congruence. assert (b' = b) as -> by congruence.
    assert (r' = r) as -> by congruence. assert (s' = s) as -> by congruence.
    assert (d = v) as -> by congruence.
    exists w. split; [done|lia].
  - apply lookup_lt_Some in Hb as Hltb. fold (len (seq2 self)) in Hltb.
    split; [lia|]. split; [lia|].
    destruct (decide (i = 0%nat)) as [->|Hne].
    + rewrite zeros in Hv by lia. injection Hv as <-.
      exists 0. split; [apply zeros; lia|]. unfold gap_cost. simpl. lia.
    + destruct (cell_facts i (S j)) as (_ & _ & _ & _ & _ & u & _ & w & _ &
        _ & _ & _ & _ & _ & Hu & _ & Hw & _ & _ & Hle & _); [lia..|].
      replace (S j - 1)%nat with j in * by lia.
      assert (u = v) as -> by congruence.
      exists w. split; [done|lia].
  - apply lookup_lt_Some in Ha as Hlta. fold (len (seq1 self)) in Hlta.
    split; [lia|]. split; [lia|].
    destruct (decide (j = 0%nat)) as [->|Hne].
    + rewrite zeros in Hv by lia. injection Hv as <-.
      exists 0. split; [apply zeros; lia|]. unfold gap_cost. simpl. lia.
    + destruct (cell_facts (S i) j) as (_ & _ & _ & _ & _ & _ & l & w & _ &
        _ & _ & _ & _ & _ & _ & Hl & Hw & _ & _ & _ & Hle & _); [lia..|].
      replace (S i - 1)%nat with i in * by lia.
      assert (l = v) as -> by congruence.
      exists w. split; [done|lia].
Qed.
End filled.

Lemma tb_eqb_true (a b : tbval) : tb_eqb a b = true → a = b.
Proof. by destruct a, b. Qed.

Lemma tb_eqb_false (a b : tbval) : tb_eqb a b = false → a ≠ b.
Proof. by destruct a, b. Qed.

Section traceback_scored.
Variable self : PairwiseAlignment.
Local Abbreviation n := (len (seq1 self)).
Local Abbreviation m := (len (seq2 self)).
Variables (scores : list (list Z)) (tracebk : list (list tbval)).
Hypothesis filled : fill_inv self n m (scores, tracebk).
Hypothesis zeros : zero_borders n m scores.

(** From cell [(i, j)] the traceback emits, in reverse, an alignment of the
    two prefixes whose total is the score of the cell. *)
Lemma traceback_alignment (fuel : nat) :
  ∀ (i j : nat) (s1 s2 : list ascii) (x1 x2 : list Z),
    (i ≤ n)%nat → (j ≤ m)%nat → (i + j ≤ fuel)%nat →
    ∃ a1 a2 y1 y2 t,
      traceback fuel self tracebk (Z.of_nat i) (Z.of_nat j) (s1, s2, x1, x2)
        = Ok (s1 ++ a1, s2 ++ a2, x1 ++ y1, x2 ++ y2) ∧
      raw_alignment self i j (reverse a1) (reverse a2) (reverse y1) (reverse y2) t ∧
      grid_get scores i j = Ok t.
Proof.
  destruct filled as (_ & Hdtb & [Hleft Hup] & _). simpl in Hdtb, Hleft, Hup.
  induction fuel as [|fuel IH]; intros i j s1 s2 x1 x2 Hi Hj Hf.
  - assert (i = 0%nat) as -> by lia. assert (j = 0%nat) as -> by lia.
    exists [], [], [], [], 0. rewrite !app_nil_r. simpl.
    split; [done|]. split; [constructor|apply zeros; lia].
  - destruct (decide (i = 0 ∧ j = 0)%nat) as [[-> ->]|Hne].
    { exists [], [], [], [], 0. rewrite !app_nil_r. simpl.
      split; [done|]. split; [constructor|apply zeros; lia]. }
    cbn [traceback].
    replace ((0 <? Z.of_nat i) || (0 <? Z.of_nat j)) with true
      by (symmetry; apply orb_true_iff; rewrite !Z.ltb_lt; lia).
    rewrite grid_getZ_of_nat.
    destruct (grid_get_lt _ _ tracebk i j Hdtb) as [dir Hdir]; [lia..|].
    rewrite Hdir. cbn [bind].
    assert (Hi0 : i = 0%nat → dir = Tu).
    { intros ->. rewrite Hup in Hdir by lia. congruence. }
    assert (Hj0 : j = 0%nat → dir = Tl).
    { intros ->. rewrite Hleft in Hdir by lia. congruence. }
    assert (Hcell : (1 ≤ i)%nat → (1 ≤ j)%nat →
      ∃ a b r s d u l v,
        list_ascii_of_string (seq1 self) !! (i - 1)%nat = Some a ∧
        list_ascii_of_string (seq2 self) !! (j - 1)%nat = Some b ∧
        dict_get svals a = Ok r ∧ dict_get r b = Ok s ∧
        grid_get scores (i - 1) (j - 1) = Ok d ∧
        grid_get scores i (j - 1) = Ok u ∧
        grid_get scores (i - 1) j = Ok l ∧
        grid_get scores i j = Ok v ∧
        match dir with
        | Td => v = d + s
        | Tu => v = u + gap_cost (gapp self) n i
        | Tl => v = l + gap_cost (gapp self) m j
        | T0 => False
        end).
    { intros Hi1 Hj1.
      destruct (cell_facts self scores tracebk filled i j)
        as (a & b & r & s & d & u & l & v & dir' & ? & ? & ? & ? & ? & ? & ? & ? & Hdir' & _ & _ & _ & Hm);
        [lia..|].
      assert (dir' = dir) as -> by congruence.
      exists a, b, r, s, d, u, l, v. done. }
    destruct (tb_eqb dir Td) eqn:Ed; [|destruct (tb_eqb dir Tu) eqn:Eu].
    + apply tb_eqb_true in Ed as ->.
      assert (1 ≤ i ∧ 1 ≤ j)%nat as [Hi1 Hj1].
      { split; [destruct (decide (i = 0%nat)) as [E|]; [by apply Hi0 in E|lia]
               |destruct (decide (j = 0%nat)) as [E|]; [by apply Hj0 in E|lia]]. }
      destruct (Hcell Hi1 Hj1) as (a & b & r & s & d & u & l & v & Ha & Hb & Hr & Hs & Hd & _ & _ & Hv & Hm).
      destruct (str_getitemZ_pred (seq1 self) i) as (c1 & -> & Hc1); [lia|].
      destruct (str_getitemZ_pred (seq2 self) j) as (c2 & -> & Hc2); [lia|].
      assert (c1 = a) as -> by congruence. assert (c2 = b) as -> by congruence.
      cbn [bind].
      replace (Z.of_nat i - 1) with (Z.of_nat (i - 1)) by lia.
      replace (Z.of_nat j - 1) with (Z.of_nat (j - 1)) by lia.
      destruct (IH (i - 1)%nat (j - 1)%nat (s1 ++ [a]) (s2 ++ [b])
                  (x1 ++ [Z.of_nat (i - 1)]) (x2 ++ [Z.of_nat (j - 1)]))
        as (a1 & a2 & y1 & y2 & t & -> & Hal & Ht); [lia..|].
      assert (d = t) as -> by congruence.
      exists (a :: a1), (b :: a2), (Z.of_nat (i - 1) :: y1), (Z.of_nat (j - 1) :: y2), (t + s).
      rewrite <- !app_assoc. split; [done|]. rewrite !reverse_cons.
      split; [|by rewrite Hv, Hm].
      replace i with (S (i - 1)) at 1 by lia. replace j with (S (j - 1)) at 1 by lia.
      by eapply al_pair.
    + apply tb_eqb_true in Eu as ->.
      assert (1 ≤ j)%nat as Hj1.
      { destruct (decide (j = 0%nat)) as [E|]; [by apply Hj0 in E|lia]. }
      destruct (str_getitemZ_pred (seq2 self) j) as (c2 & -> & Hc2); [lia|].
      cbn [bind].
      replace (Z.of_nat j - 1) with (Z.of_nat (j - 1)) by lia.
      destruct (IH i (j - 1)%nat (s1 ++ ["-"%char]) (s2 ++ [c2])
                  (x1 ++ [-1]) (x2 ++ [Z.of_nat (j - 1)]))
        as (a1 & a2 & y1 & y2 & t & -> & Hal & Ht); [lia..|].
      exists ("-"%char :: a1), (c2 :: a2), (-1 :: y1), (Z.of_nat (j - 1) :: y2),
        (t + gap_cost (gapp self) n i).
      rewrite <- !app_assoc. split; [done|]. rewrite !reverse_cons. split.
      * replace j with (S (j - 1)) at 1 by lia.
        by apply (al_gap1 (fun _ => -1)).
      * destruct (decide (i = 0%nat)) as [->|Hne0].
        { rewrite zeros in Ht by lia. injection Ht as <-.
          unfold gap_cost. simpl. apply zeros; lia. }
        destruct (Hcell ltac:(lia) Hj1) as (a & b & r & s & d & u & l & v & _ & _ & _ & _ & _ & Hu & _ & Hv & Hm).
        assert (u = t) as -> by congruence. by rewrite Hv, Hm.
    + apply tb_eqb_false in Ed. apply tb_eqb_false in Eu.
      assert (1 ≤ i)%nat as Hi1.
      { destruct (decide (i = 0%nat)) as [E|]; [by apply Hi0 in E|lia]. }
      destruct (str_getitemZ_pred (seq1 self) i) as (c1 & -> & Hc1); [lia|].
      cbn [bind].
      replace (Z.of_nat i - 1) with (Z.of_nat (i - 1)) by lia.
      destruct (IH (i - 1)%nat j (s1 ++ [c1]) (s2 ++ ["-"%char])
                  (x1 ++ [Z.of_nat (i - 1)]) (x2 ++ [-1]))
        as (a1 & a2 & y1 & y2 & t & -> & Hal & Ht); [lia..|].
      exists (c1 :: a1), ("-"%char :: a2), (Z.of_nat (i - 1) :: y1), (-1 :: y2),
        (t + gap_cost (gapp self) m j).
      rewrite <- !app_assoc. split; [done|]. rewrite !reverse_cons. split.
      * replace i with (S (i - 1)) at 1 by lia.
        by apply (al_gap2 (fun _ => -1)).
      * destruct (decide (j = 0%nat)) as [->|Hne0].
        { rewrite zeros in Ht by lia. injection Ht as <-.
          unfold gap_cost. simpl. apply zeros; lia. }
        destruct (Hcell Hi1 ltac:(lia)) as (a & b & r & s & d & u & l & v & _ & _ & _ & _ & _ & _ & Hl & Hv & Hm).
        assert (l = t) as -> by congruence.
        destruct dir; try done. by rewrite Hv, Hm.
Qed.
End traceback_scored.

(** Marking the gaps turns the columns of the traceback into the columns of
    the result. *)
Lemma raw_to_final (self : PairwiseAlignment) (i j : nat) (cs1 cs2 : list ascii)
    (x1 x2 : list Z) (t : Z) :
  raw_alignment self i j cs1 cs2 x1 x2 t →
  alignment self i j cs1 cs2 (mark (-1) x1) (mark (-1) x2) t ∧
  gv_after (-1) x1 = - (Z.of_nat i + 1) ∧ gv_after (-1) x2 = - (Z.of_nat j + 1).
Proof.
  induction 1 as [|i j a b r s cs1 cs2 x1 x2 t _ (IH & G1 & G2) Ha Hb Hr Hs
                  |i j b cs1 cs2 x1 x2 t _ (IH & G1 & G2) Hi Hb
                  |i j a cs1 cs2 x1 x2 t _ (IH & G1 & G2) Hj Ha];
    rewrite ?mark_snoc, ?gv_after_snoc.
  - split; [constructor|done].
  - destruct (Z.eqb_spec (Z.of_nat i) (-1)); [lia|].
    destruct (Z.eqb_spec (Z.of_nat j) (-1)); [lia|].
    split; [by eapply al_pair|lia].
  - destruct (Z.eqb_spec (Z.of_nat j) (-1)); [lia|]. simpl. rewrite G1.
    split; [|lia]. by apply (al_gap1 (fun k => - (Z.of_nat k + 1))).
  - destruct (Z.eqb_spec (Z.of_nat i) (-1)); [lia|]. simpl. rewrite G2.
    split; [|lia]. by apply (al_gap2 (fun k => - (Z.of_nat k + 1))).
Qed.

(** What [doAlignment] returns is an alignment of the two sequences, and
    its score is the entry of the grid that no alignment exceeds. *)
Lemma doAlignment_alignment (self self' : PairwiseAlignment) :
  doAlignment self = Ok self' →
  alignment self (len (seq1 self)) (len (seq2 self))
    (list_ascii_of_string (seq1aligned self')) (list_ascii_of_string (seq2aligned self'))
    (seq1indexed self') (seq2indexed self') (score self') ∧
  ∀ mk i j cs1 cs2 x1 x2 t,
    alignment_of mk self i j cs1 cs2 x1 x2 t →
    i = len (seq1 self) → j = len (seq2 self) → t <= score self'.
Proof.
  intros (sc & tb & a1 & a2 & y1 & y2 & Hinv & Hz & Hsc & Htb & _ & -> & -> & -> & ->)%doAlignment_inv.
  split.
  - destruct (traceback_alignment self sc tb Hinv Hz (len (seq1 self) + len (seq2 self))
                (len (seq1 self)) (len (seq2 self)) [] [] [] [])
      as (b1 & b2 & z1 & z2 & t & E & Hal & Ht); [lia..|].
    rewrite Htb in E. simpl in E. injection E as <- <- <- <-.
    assert (t = score self') as -> by congruence.
    rewrite !list_of_join. by apply raw_to_final in Hal as [? _].
  - intros mk i j cs1 cs2 x1 x2 t Hal -> ->.
    destruct (alignment_bounded self sc tb Hinv Hz _ _ _ _ _ _ _ _ Hal) as (_ & _ & v & Hv & Hle).
    congruence.
Qed.

(** ** The score table *)

Lemma alphabet_cases (P : ascii → Prop) (c : ascii) :
  c ∈ alphabet → Forall P alphabet → P c.
Proof. intros Hc HP. by apply (proj1 (Forall_forall _ _) HP). Qed.

Lemma score_of_keys (c1 c2 : ascii) :
  if is_key c1 && is_key c2 then ∃ s, score_of c1 c2 = Ok s
  else score_of c1 c2 = Raise KeyError.
Proof.
  unfold score_of. pose proof (svals_lookup c1) as H1.
  destruct (is_key c1); cbn [andb]; [|by rewrite H1].
  destruct H1 as (r & -> & H2). cbn [bind]. apply H2.
Qed.

Lemma score_of_sym (c1 c2 : ascii) : score_of c1 c2 = score_of c2 c1.
Proof.
  pose proof (score_of_keys c1 c2) as H12. pose proof (score_of_keys c2 c1) as H21.
  rewrite (andb_comm (is_key c2)) in H21.
  destruct (is_key c1) eqn:K1, (is_key c2) eqn:K2; cbn [andb] in H12, H21;
    try (by rewrite H12, H21).
  apply is_key_alphabet in K1. apply is_key_alphabet in K2. clear H12 H21.
  apply (alphabet_cases (fun c2 => score_of c1 c2 = score_of c2 c1) c2 K2).
  apply (alphabet_cases (fun c1 => Forall (fun c2 => score_of c1 c2 = score_of c2 c1) alphabet) c1 K1).
  repeat constructor.
Qed.

Lemma score_of_range (c1 c2 : ascii) (s : Z) :
  score_of c1 c2 = Ok s →
  -6 <= s <= 6 ∧ (s = 6 ↔ c1 = c2 ∧ c1 ∈ bases).
Proof.
  intros H. pose proof (score_of_keys c1 c2) as Hk.
  destruct (is_key c1) eqn:K1, (is_key c2) eqn:K2; cbn [andb] in Hk; try congruence.
  clear Hk. apply is_key_alphabet in K1. apply is_key_alphabet in K2.
  revert s H.
  apply (alphabet_cases
    (fun c2 => ∀ s, score_of c1 c2 = Ok s → -6 <= s <= 6 ∧ (s = 6 ↔ c1 = c2 ∧ c1 ∈ bases)) c2 K2).
  apply (alphabet_cases
    (fun c1 => Forall (fun c2 => ∀ s, score_of c1 c2 = Ok s →
       -6 <= s <= 6 ∧ (s = 6 ↔ c1 = c2 ∧ c1 ∈ bases)) alphabet) c1 K1).
  repeat constructor; try lia; injection H as <-;
    try discriminate; try reflexivity;
    try (apply bool_decide_unpack; reflexivity);
    try (by intros [E _]); try (intros [_ E]; by apply (bool_decide_pack _) in E).
Qed.

(** X1: the table is symmetric: [svals[c1][c2]] and [svals[c2][c1]] are the same
    score, or both raise [KeyError]. *)
Theorem svals_symmetric (c1 c2 : ascii) : score_of c1 c2 = score_of c2 c1.
Proof. apply score_of_sym. Qed.

(** X2: every score of the table lies between -6 and 6, and 6 is the score of an
    unambiguous base against itself only. *)
Theorem svals_range (c1 c2 : ascii) (s : Z) :
  score_of c1 c2 = Ok s →
  -6 <= s <= 6 ∧ (s = 6 ↔ c1 = c2 ∧ c1 ∈ bases).
Proof. apply score_of_range. Qed.

Lemma svals_range_witness :
  score_of "G" "G" = Ok 6 ∧
  (-6 <= 6 <= 6 ∧ (6 = 6 ↔ "G"%char = "G"%char ∧ "G"%char ∈ bases)).
Proof.
  split; [reflexivity|]. apply (svals_range "G" "G" 6). reflexivity.
Defined.

(** ** The outcomes of [doAlignment] *)

(** X3: [doAlignment] raises [KeyError] exactly when both sequences are
    non-empty and one of them has a character outside the table; in every
    other case it returns.  It never raises [IndexError]. *)
Theorem doAlignment_outcome (self : PairwiseAlignment) :
  (doAlignment self = Raise KeyError ↔
     len (seq1 self) ≠ 0%nat ∧ len (seq2 self) ≠ 0%nat ∧
     valid (seq1 self) && valid (seq2 self) = false) ∧
  ((∃ self', doAlignment self = Ok self') ↔
     len (seq1 self) = 0%nat ∨ len (seq2 self) = 0%nat ∨
     valid (seq1 self) && valid (seq2 self) = true) ∧
  doAlignment self ≠ Raise IndexError.
Proof.
  pose proof (doAlignment_spec self) as H.
  pose proof (all_good_iff self) as Hg.
  destruct (all_good self).
  - destruct H as (self' & H & _).
    destruct (proj1 Hg eq_refl) as [Hn|[Hm|[V1 V2]]];
      (split; [split; [congruence|intros (? & ? & Hv); try done; by rewrite V1, V2 in Hv]|]);
      (split; [|congruence]); (split; [intros _|eauto]); auto.
    right; right. by rewrite V1, V2.
  - assert (¬ (len (seq1 self) = 0%nat ∨ len (seq2 self) = 0%nat ∨
               (valid (seq1 self) = true ∧ valid (seq2 self) = true))) as Hn.
    { intros Hc. apply Hg in Hc. discriminate. }
    split; [split; [intros _|done]|split; [split|congruence]].
    + split; [tauto|]. split; [tauto|].
      destruct (valid (seq1 self)), (valid (seq2 self)); try done. tauto.
    + intros [self' E]. congruence.
    + intros [?|[?|Hv]]; [tauto..|].
      apply andb_prop in Hv. tauto.
Qed.

(** ** What the outcome depends on *)

Section independence.
Variables self self2 : PairwiseAlignment.
Hypothesis same_gapp : gapp self = gapp self2.
Hypothesis same_seq1 : seq1 self = seq1 self2.
Hypothesis same_seq2 : seq2 self = seq2 self2.

Lemma candidates_indep (scores : list (list Z)) (i j : nat) :
  candidates self scores i j = candidates self2 scores i j.
Proof. unfold candidates. by rewrite same_gapp, same_seq1, same_seq2. Qed.

Lemma fill_indep (st : list (list Z) * list (list tbval)) :
  fill self st = fill self2 st.
Proof.
  unfold fill. rewrite same_seq1, same_seq2.
  apply for_each_ext. intros i s. apply for_each_ext. intros j [sc tb].
  unfold fill_cell. by rewrite candidates_indep.
Qed.

Lemma traceback_indep (tracebk : list (list tbval)) (fuel : nat) :
  ∀ (i j : Z) (acc : tb_acc),
    traceback fuel self tracebk i j acc = traceback fuel self2 tracebk i j acc.
Proof.
  induction fuel as [|fuel IH]; intros i j [[[s1 s2] x1] x2]; cbn [traceback]; [done|].
  destruct ((0 <? i) || (0 <? j)); [|done].
  rewrite same_seq1, same_seq2.
  destruct (grid_getZ tracebk i j) as [t| |]; cbn [bind]; [|done..].
  destruct (tb_eqb t Td); [|destruct (tb_eqb t Tu)].
  - destruct (str_getitemZ (seq1 self2) (i - 1)); cbn [bind]; [|done..].
    destruct (str_getitemZ (seq2 self2) (j - 1)); cbn [bind]; [|done..].
    apply IH.
  - destruct (str_getitemZ (seq2 self2) (j - 1)); cbn [bind]; [|done..].
    apply IH.
  - destruct (str_getitemZ (seq1 self2) (i - 1)); cbn [bind]; [|done..].
    apply IH.
Qed.

(** Two objects with the same gap penalty and the same sequences have the
    same outcome, whatever results they hold. *)
Lemma doAlignment_indep : doAlignment self = doAlignment self2.
Proof.
  unfold doAlignment. rewrite same_gapp, same_seq1, same_seq2.
  destruct (init_tracebk _ _) as [tb0| |]; cbn [bind]; [|done..].
  rewrite fill_indep.
  destruct (fill self2 _) as [[sc tb]| |]; cbn [bind]; [|done..].
  destruct (grid_get sc _ _); cbn [bind]; [|done..].
  by rewrite traceback_indep.
Qed.
End independence.

(** X4: the outcome of [doAlignment] depends on the gap penalty and the two
    sequences last set, in whichever order they were set, and on nothing
    else the object held before. *)
Theorem doAlignment_history_free (self self2 : PairwiseAlignment)
    (gap_penalty : Z) (sequence1 sequence2 : string) :
  doAlignment (setSequences (setGapPenalty self gap_penalty) sequence1 sequence2) =
  doAlignment (setGapPenalty (setSequences self2 sequence1 sequence2) gap_penalty).
Proof. by apply doAlignment_indep. Qed.

(** X5: running [doAlignment] again on the object it returned returns the same
    object: the method keeps the gap penalty and the sequences, and does not
    read the results of the previous run. *)
Theorem doAlignment_idempotent (self self' : PairwiseAlignment) :
  doAlignment self = Ok self' →
  getGapPenalty self' = getGapPenalty self ∧ getSequences self' = getSequences self ∧
  doAlignment self' = Ok self'.
Proof.
  intros H. pose proof (doAlignment_spec self) as Hs.
  destruct (all_good self); [|congruence].
  destruct Hs as (st & E & Hg & H1 & H2 & _).
  rewrite H in E. injection E as <-.
  split; [done|]. split; [unfold getSequences; congruence|].
  rewrite <- H. by apply doAlignment_indep.
Qed.

Lemma doAlignment_idempotent_witness :
  doAlignment (setSequences init "ACGT" "AGT") =
    Ok {| gapp := -6; seq1 := "ACGT"; seq2 := "AGT";
          seq1aligned := "ACGT"; seq2aligned := "A-GT";
          seq1indexed := [0; 1; 2; 3]; seq2indexed := [0; -2; 1; 2];
          score := 12 |} ∧
  doAlignment {| gapp := -6; seq1 := "ACGT"; seq2 := "AGT";
                 seq1aligned := "ACGT"; seq2aligned := "A-GT";
                 seq1indexed := [0; 1; 2; 3]; seq2indexed := [0; -2; 1; 2];
                 score := 12 |} =
    Ok {| gapp := -6; seq1 := "ACGT"; seq2 := "AGT";
          seq1aligned := "ACGT"; seq2aligned := "A-GT";
          seq1indexed := [0; 1; 2; 3]; seq2indexed := [0; -2; 1; 2];
          score := 12 |}.
Proof.
  split; [reflexivity|].
  apply (doAlignment_idempotent (setSequences init "ACGT" "AGT")
    {| gapp := -6; seq1 := "ACGT"; seq2 := "AGT";
       seq1aligned := "ACGT"; seq2aligned := "A-GT";
       seq1indexed := [0; 1; 2; 3]; seq2indexed := [0; -2; 1; 2];
       score := 12 |} eq_refl).
Defined.

(** ** Alignments and their scores *)

Lemma score_of_Ok (a b : ascii) (s : Z) :
  score_of a b = Ok s ↔ ∃ r, dict_get svals a = Ok r ∧ dict_get r b = Ok s.
Proof. unfold score_of. apply bind_Ok. Qed.

Lemma gap_cost_end (gap_penalty : Z) (len : nat) :
  gap_cost gap_penalty len 0 = 0 ∧ gap_cost gap_penalty len len = 0.
Proof.
  unfold gap_cost. split; [done|]. rewrite Nat.eqb_refl. by rewrite orb_true_r.
Qed.

Lemma gap_cost_mono (g1 g2 : Z) (len k : nat) :
  g1 <= g2 → gap_cost g1 len k <= gap_cost g2 len k.
Proof. intros H. unfold gap_cost. destruct (_ || _); lia. Qed.

Lemma gap_cost_nonpos (g : Z) (len k : nat) : g <= 0 → gap_cost g len k <= 0.
Proof. intros H. unfold gap_cost. destruct (_ || _); lia. Qed.

(** The shape of an alignment: its four lists have one length, between the
    longer prefix and the two together; no column pairs two gaps. *)
Lemma alignment_shape (mk : nat → Z) (self : PairwiseAlignment) (i j : nat)
    (cs1 cs2 : list ascii) (x1 x2 : list Z) (t : Z) :
  (∀ k, mk k < 0) →
  alignment_of mk self i j cs1 cs2 x1 x2 t →
  length cs1 = length x1 ∧ length cs2 = length x1 ∧ length x2 = length x1 ∧
  (i ≤ length x1)%nat ∧ (j ≤ length x1)%nat ∧ (length x1 ≤ i + j)%nat ∧
  ∀ c v w, x1 !! c = Some v → x2 !! c = Some w → 0 <= v ∨ 0 <= w.
Proof.
  intros Hmk.
  induction 1 as [|i j a b r s cs1 cs2 x1 x2 t _ (L1 & L2 & L3 & B1 & B2 & B3 & IH) _ _ _ _
                  |i j b cs1 cs2 x1 x2 t _ (L1 & L2 & L3 & B1 & B2 & B3 & IH) _ _
                  |i j a cs1 cs2 x1 x2 t _ (L1 & L2 & L3 & B1 & B2 & B3 & IH) _ _];
    rewrite ?length_app; simpl.
  - repeat (split; [lia|]). intros c v w Hc. by rewrite lookup_nil in Hc.
  - repeat (split; [lia|]). intros c v w [[? Hv]|[-> <-]]%lookup_snoc_Some Hw; [|lia].
    apply lookup_snoc_Some in Hw as [[? Hw]|[? _]]; [eauto|lia].
  - repeat (split; [lia|]). intros c v w Hv [[? Hw]|[-> <-]]%lookup_snoc_Some; [|lia].
    apply lookup_snoc_Some in Hv as [[? Hv]|[? _]]; [eauto|lia].
  - repeat (split; [lia|]). intros c v w [[? Hv]|[-> <-]]%lookup_snoc_Some Hw; [|lia].
    apply lookup_snoc_Some in Hw as [[? Hw]|[? _]]; [eauto|lia].
Qed.

(** With a gap penalty that is no reward, an alignment scores at most 6 for
    each column that pairs two symbols. *)
Lemma alignment_total_le (mk : nat → Z) (self : PairwiseAlignment) (i j : nat)
    (cs1 cs2 : list ascii) (x1 x2 : list Z) (t : Z) :
  gapp self <= 0 →
  alignment_of mk self i j cs1 cs2 x1 x2 t →
  t <= 6 * (Z.of_nat i + Z.of_nat j - Z.of_nat (length x1)).
Proof.
  intros Hg.
  induction 1 as [|i j a b r s cs1 cs2 x1 x2 t _ IH _ _ Hr Hs
                  |i j b cs1 cs2 x1 x2 t _ IH _ _
                  |i j a cs1 cs2 x1 x2 t _ IH _ _];
    rewrite ?length_app; simpl.
  - lia.
  - assert (score_of a b = Ok s) as Hsc by (apply score_of_Ok; eauto).
    apply score_of_range in Hsc as [? _]. lia.
  - pose proof (gap_cost_nonpos (gapp self) (len (seq1 self)) i Hg). lia.
  - pose proof (gap_cost_nonpos (gapp self) (len (seq2 self)) j Hg). lia.
Qed.

Lemma alignment_total_eq (mk : nat → Z) (self : PairwiseAlignment) (i j : nat)
    (cs1 cs2 : list ascii) (x1 x2 : list Z) (t t' : Z) :
  alignment_of mk self i j cs1 cs2 x1 x2 t → t = t' →
  alignment_of mk self i j cs1 cs2 x1 x2 t'.
Proof. by intros H <-. Qed.

(** The alignment that places all of [seq2] before all of [seq1] consists of
    end gaps only, and scores 0. *)
Lemma end_gaps_alignment (mk : nat → Z) (self : PairwiseAlignment) :
  ∃ cs1 cs2 x1 x2,
    alignment_of mk self (len (seq1 self)) (len (seq2 self)) cs1 cs2 x1 x2 0.
Proof.
  assert (H1 : ∀ j, (j ≤ len (seq2 self))%nat →
            ∃ cs1 cs2 x1 x2, alignment_of mk self 0 j cs1 cs2 x1 x2 0).
  { induction j as [|j IH]; intros Hj.
    - exists [], [], [], []. constructor.
    - destruct IH as (cs1 & cs2 & x1 & x2 & IH); [lia|].
      destruct (lookup_lt_is_Some_2 (list_ascii_of_string (seq2 self)) j) as [b Hb];
        [unfold len in Hj; lia|].
      eexists _, _, _, _.
      eapply alignment_total_eq; [apply al_gap1; [exact IH|lia|exact Hb]|].
      rewrite (proj1 (gap_cost_end (gapp self) (len (seq1 self)))). lia. }
  assert (H2 : ∀ i, (i ≤ len (seq1 self))%nat →
            ∃ cs1 cs2 x1 x2, alignment_of mk self i (len (seq2 self)) cs1 cs2 x1 x2 0).
  { induction i as [|i IH]; intros Hi.
    - by apply H1.
    - destruct IH as (cs1 & cs2 & x1 & x2 & IH); [lia|].
      destruct (lookup_lt_is_Some_2 (list_ascii_of_string (seq1 self)) i) as [a Ha];
        [unfold len in Hi; lia|].
      eexists _, _, _, _.
      eapply alignment_total_eq; [apply al_gap2; [exact IH|lia|exact Ha]|].
      rewrite (proj2 (gap_cost_end (gapp self) (len (seq2 self)))). lia. }
  by apply H2.
Qed.

(** The same columns under a larger gap penalty score no less. *)
Lemma alignment_mono (mk : nat → Z) (self self2 : PairwiseAlignment) (i j : nat)
    (cs1 cs2 : list ascii) (x1 x2 : list Z) (t : Z) :
  seq1 self = seq1 self2 → seq2 self = seq2 self2 → gapp self <= gapp self2 →
  alignment_of mk self i j cs1 cs2 x1 x2 t →
  ∃ t2, alignment_of mk self2 i j cs1 cs2 x1 x2 t2 ∧ t <= t2.
Proof.
  intros E1 E2 Hg.
  induction 1 as [|i j a b r s cs1 cs2 x1 x2 t _ (t2 & IH & Hle) Ha Hb Hr Hs
                  |i j b cs1 cs2 x1 x2 t _ (t2 & IH & Hle) Hi Hb
                  |i j a cs1 cs2 x1 x2 t _ (t2 & IH & Hle) Hj Ha].
  - exists 0. split; [constructor|lia].
  - exists (t2 + s). split; [|lia]. rewrite E1 in Ha. rewrite E2 in Hb. by eapply al_pair.
  - exists (t2 + gap_cost (gapp self2) (len (seq1 self2)) i). split.
    + rewrite E1 in Hi. rewrite E2 in Hb. by apply al_gap1.
    + rewrite <- E1. pose proof (gap_cost_mono _ _ (len (seq1 self)) i Hg). lia.
  - exists (t2 + gap_cost (gapp self2) (len (seq2 self2)) j). split.
    + rewrite E2 in Hj. rewrite E1 in Ha. by apply al_gap2.
    + rewrite <- E2. pose proof (gap_cost_mono _ _ (len (seq2 self)) j Hg). lia.
Qed.

(** An alignment read with the two sequences exchanged is an alignment of
    the exchanged sequences, with the same score. *)
Lemma alignment_swap (mk : nat → Z) (self self2 : PairwiseAlignment) (i j : nat)
    (cs1 cs2 : list ascii) (x1 x2 : list Z) (t : Z) :
  seq1 self2 = seq2 self → seq2 self2 = seq1 self → gapp self2 = gapp self →
  alignment_of mk self i j cs1 cs2 x1 x2 t →
  alignment_of mk self2 j i cs2 cs1 x2 x1 t.
Proof.
  intros E1 E2 Eg.
  induction 1 as [|i j a b r s cs1 cs2 x1 x2 t _ IH Ha Hb Hr Hs
                  |i j b cs1 cs2 x1 x2 t _ IH Hi Hb
                  |i j a cs1 cs2 x1 x2 t _ IH Hj Ha].
  - constructor.
  - assert (score_of b a = Ok s) as (r' & Hr' & Hs')%score_of_Ok.
    { rewrite score_of_sym. apply score_of_Ok. eauto. }
    rewrite <- E2 in Ha. rewrite <- E1 in Hb. by eapply al_pair.
  - rewrite <- E2, <- Eg. rewrite <- E2 in Hi. rewrite <- E1 in Hb. by apply al_gap2.
  - rewrite <- E1, <- Eg. rewrite <- E1 in Hj. rewrite <- E2 in Ha. by apply al_gap1.
Qed.

(** ** The result as an alignment *)

(** X6: the result of [doAlignment] is an alignment of the two sequences in the
    sense of the class: its columns pair the symbols of both sequences, in
    order, with each other or with a gap, and the reported score is the sum
    of the table entries of the paired symbols and of the gap penalty for
    every gap that is not an end gap. *)
Theorem doAlignment_scored (self self' : PairwiseAlignment) :
  doAlignment self = Ok self' →
  alignment self (len (seq1 self)) (len (seq2 self))
    (list_ascii_of_string (seq1aligned self')) (list_ascii_of_string (seq2aligned self'))
    (seq1indexed self') (seq2indexed self') (score self').
Proof. intros H. by apply doAlignment_alignment in H as [? _]. Qed.

Lemma doAlignment_scored_witness :
  doAlignment (setSequences init "ACGT" "AGT") =
    Ok {| gapp := -6; seq1 := "ACGT"; seq2 := "AGT";
          seq1aligned := "ACGT"; seq2aligned := "A-GT";
          seq1indexed := [0; 1; 2; 3]; seq2indexed := [0; -2; 1; 2];
          score := 12 |} ∧
  alignment (setSequences init "ACGT" "AGT") 4 3
    (list_ascii_of_string "ACGT") (list_ascii_of_string "A-GT")
    [0; 1; 2; 3] [0; -2; 1; 2] 12.
Proof.
  split; [reflexivity|].
  apply (doAlignment_scored (setSequences init "ACGT" "AGT")
    {| gapp := -6; seq1 := "ACGT"; seq2 := "AGT";
       seq1aligned := "ACGT"; seq2aligned := "A-GT";
       seq1indexed := [0; 1; 2; 3]; seq2indexed := [0; -2; 1; 2];
       score := 12 |} eq_refl).
Defined.

(** X7: the result is optimal: no alignment of the two sequences scores more
    than the score that [doAlignment] reports. *)
Theorem doAlignment_optimal (self self' : PairwiseAlignment)
    (cs1 cs2 : list ascii) (x1 x2 : list Z) (t : Z) :
  doAlignment self = Ok self' →
  alignment self (len (seq1 self)) (len (seq2 self)) cs1 cs2 x1 x2 t →
  t <= score self'.
Proof.
  intros H Hal. apply doAlignment_alignment in H as [_ Hopt].
  by eapply Hopt.
Qed.

Lemma doAlignment_optimal_witness :
  doAlignment (setSequences init "A" "A") =
    Ok {| gapp := -6; seq1 := "A"; seq2 := "A";
          seq1aligned := "A"; seq2aligned := "A";
          seq1indexed := [0]; seq2indexed := [0]; score := 6 |} ∧
  alignment (setSequences init "A" "A") 1 1
    ["-"; "A"]%char ["A"; "-"]%char [-1; 0] [0; -2] 0 ∧
  0 <= 6.
Proof.
  split; [reflexivity|].
  assert (alignment (setSequences init "A" "A") 1 1
            ["-"; "A"]%char ["A"; "-"]%char [-1; 0] [0; -2] 0) as Hal.
  { apply (al_gap2 (fun k => - (Z.of_nat k + 1)) (setSequences init "A" "A")
             0 1 "A" ["-"%char] ["A"%char] [-1] [0] 0); [|reflexivity|reflexivity].
    apply (al_gap1 (fun k => - (Z.of_nat k + 1)) (setSequences init "A" "A")
             0 0 "A" [] [] [] [] 0); [constructor|unfold len; simpl; lia|reflexivity]. }
  split; [exact Hal|].
  apply (doAlignment_optimal (setSequences init "A" "A")
    {| gapp := -6; seq1 := "A"; seq2 := "A";
       seq1aligned := "A"; seq2aligned := "A";
       seq1indexed := [0]; seq2indexed := [0]; score := 6 |}
    ["-"; "A"]%char ["A"; "-"]%char [-1; 0] [0; -2] 0 eq_refl Hal).
Defined.

(** X8: the result has one length for both aligned sequences and both index
    lists; it is at least the length of the longer sequence and at most the
    two lengths together; and no column holds a gap in both sequences. *)
Theorem doAlignment_shape (self self' : PairwiseAlignment) :
  doAlignment self = Ok self' →
  len (seq1aligned self') = length (seq1indexed self') ∧
  len (seq2aligned self') = length (seq1indexed self') ∧
  length (seq2indexed self') = length (seq1indexed self') ∧
  (len (seq1 self) ≤ length (seq1indexed self'))%nat ∧
  (len (seq2 self) ≤ length (seq1indexed self'))%nat ∧
  (length (seq1indexed self') ≤ len (seq1 self) + len (seq2 self))%nat ∧
  ∀ c v w, seq1indexed self' !! c = Some v → seq2indexed self' !! c = Some w →
    0 <= v ∨ 0 <= w.
Proof.
  intros H. apply doAlignment_alignment in H as [Hal _].
  apply alignment_shape in Hal; [done|]. intros k. lia.
Qed.

Lemma doAlignment_shape_witness :
  doAlignment (setSequences init "AACC" "CCAA") =
    Ok {| gapp := -6; seq1 := "AACC"; seq2 := "CCAA";
          seq1aligned := "AACC--"; seq2aligned := "--CCAA";
          seq1indexed := [0; 1; 2; 3; -5; -5];
          seq2indexed := [-1; -1; 0; 1; 2; 3];
          score := 12 |} ∧
  len "AACC--" = length [0; 1; 2; 3; -5; -5] ∧
  len "--CCAA" = length [0; 1; 2; 3; -5; -5] ∧
  length [-1; -1; 0; 1; 2; 3] = length [0; 1; 2; 3; -5; -5] ∧
  (len "AACC" ≤ length [0; 1; 2; 3; -5; -5]%Z)%nat ∧
  (len "CCAA" ≤ length [0; 1; 2; 3; -5; -5]%Z)%nat ∧
  (length [0; 1; 2; 3; -5; -5]%Z ≤ len "AACC" + len "CCAA")%nat ∧
  ∀ c v w, [0; 1; 2; 3; -5; -5] !! c = Some v → [-1; -1; 0; 1; 2; 3] !! c = Some w →
    0 <= v ∨ 0 <= w.
Proof.
  split; [reflexivity|].
  apply (doAlignment_shape (setSequences init "AACC" "CCAA")
    {| gapp := -6; seq1 := "AACC"; seq2 := "CCAA";
       seq1aligned := "AACC--"; seq2aligned := "--CCAA";
       seq1indexed := [0; 1; 2; 3; -5; -5];
       seq2indexed := [-1; -1; 0; 1; 2; 3];
       score := 12 |} eq_refl).
Defined.

(** ** Bounds on the score *)

(** X9: the score is never negative, whatever the gap penalty: the alignment
    made of end gaps only is free. *)
Theorem score_nonnegative (self self' : PairwiseAlignment) :
  doAlignment self = Ok self' → 0 <= getAlignmentScore self'.
Proof.
  intros H. apply doAlignment_alignment in H as [_ Hopt].
  destruct (end_gaps_alignment (fun _ => -1) self) as (cs1 & cs2 & x1 & x2 & Hal).
  by eapply Hopt.
Qed.

Lemma score_nonnegative_witness :
  doAlignment (setSequences init "AAAA" "CCCC") =
    Ok {| gapp := -6; seq1 := "AAAA"; seq2 := "CCCC";
          seq1aligned := "AAAA----"; seq2aligned := "----CCCC";
          seq1indexed := [0; 1; 2; 3; -5; -5; -5; -5];
          seq2indexed := [-1; -1; -1; -1; 0; 1; 2; 3];
          score := 0 |} ∧
  0 <= 0.
Proof.
  split; [reflexivity|].
  apply (score_nonnegative (setSequences init "AAAA" "CCCC")
    {| gapp := -6; seq1 := "AAAA"; seq2 := "CCCC";
       seq1aligned := "AAAA----"; seq2aligned := "----CCCC";
       seq1indexed := [0; 1; 2; 3; -5; -5; -5; -5];
       seq2indexed := [-1; -1; -1; -1; 0; 1; 2; 3];
       score := 0 |} eq_refl).
Defined.

(** X10: with a gap penalty that is not positive, the score is at most 6 times
    the length of the shorter sequence. *)
Theorem score_upper_bound (self self' : PairwiseAlignment) :
  doAlignment self = Ok self' → getGapPenalty self <= 0 →
  getAlignmentScore self' <=
    6 * Z.min (Z.of_nat (len (seq1 self))) (Z.of_nat (len (seq2 self))).
Proof.
  intros H Hg. apply doAlignment_alignment in H as [Hal _].
  pose proof (alignment_total_le _ _ _ _ _ _ _ _ _ Hg Hal) as Hle.
  apply alignment_shape in Hal as (_ & _ & _ & B1 & B2 & _); [|intros k; lia].
  unfold getAlignmentScore. lia.
Qed.

Lemma score_upper_bound_witness :
  doAlignment (setSequences init "ACGT" "AGT") =
    Ok {| gapp := -6; seq1 := "ACGT"; seq2 := "AGT";
          seq1aligned := "ACGT"; seq2aligned := "A-GT";
          seq1indexed := [0; 1; 2; 3]; seq2indexed := [0; -2; 1; 2];
          score := 12 |} ∧
  getGapPenalty (setSequences init "ACGT" "AGT") <= 0 ∧
  12 <= 6 * Z.min (Z.of_nat (len "ACGT")) (Z.of_nat (len "AGT")).
Proof.
  split; [reflexivity|]. split; [discriminate|].
  apply (score_upper_bound (setSequences init "ACGT" "AGT")
    {| gapp := -6; seq1 := "ACGT"; seq2 := "AGT";
       seq1aligned := "ACGT"; seq2aligned := "A-GT";
       seq1indexed := [0; 1; 2; 3]; seq2indexed := [0; -2; 1; 2];
       score := 12 |} eq_refl).
  discriminate.
Defined.

(** X11: raising the gap penalty with [setGapPenalty] never lowers the score of
    the same two sequences. *)
Theorem score_monotone_in_gap_penalty (self r1 r2 : PairwiseAlignment) (gap_penalty : Z) :
  doAlignment self = Ok r1 →
  doAlignment (setGapPenalty self gap_penalty) = Ok r2 →
  getGapPenalty self <= gap_penalty →
  getAlignmentScore r1 <= getAlignmentScore r2.
Proof.
  intros H1 H2 Hg.
  apply doAlignment_alignment in H1 as [Hal _].
  apply doAlignment_alignment in H2 as [_ Hopt].
  destruct (alignment_mono _ self (setGapPenalty self gap_penalty) _ _ _ _ _ _ _
              eq_refl eq_refl Hg Hal) as (t2 & Hal2 & Hle).
  specialize (Hopt _ _ _ _ _ _ _ _ Hal2 eq_refl eq_refl).
  unfold getAlignmentScore. lia.
Qed.

Lemma score_monotone_in_gap_penalty_witness :
  doAlignment (setSequences init "ACGT" "AGT") =
    Ok {| gapp := -6; seq1 := "ACGT"; seq2 := "AGT";
          seq1aligned := "ACGT"; seq2aligned := "A-GT";
          seq1indexed := [0; 1; 2; 3]; seq2indexed := [0; -2; 1; 2];
          score := 12 |} ∧
  doAlignment (setGapPenalty (setSequences init "ACGT" "AGT") (-2)) =
    Ok {| gapp := -2; seq1 := "ACGT"; seq2 := "AGT";
          seq1aligned := "ACGT"; seq2aligned := "A-GT";
          seq1indexed := [0; 1; 2; 3]; seq2indexed := [0; -2; 1; 2];
          score := 16 |} ∧
  getGapPenalty (setSequences init "ACGT" "AGT") <= -2 ∧
  12 <= 16.
Proof.
  split; [reflexivity|]. split; [reflexivity|]. split; [discriminate|].
  apply (score_monotone_in_gap_penalty (setSequences init "ACGT" "AGT")
    {| gapp := -6; seq1 := "ACGT"; seq2 := "AGT";
       seq1aligned := "ACGT"; seq2aligned := "A-GT";
       seq1indexed := [0; 1; 2; 3]; seq2indexed := [0; -2; 1; 2];
       score := 12 |}
    {| gapp := -2; seq1 := "ACGT"; seq2 := "AGT";
       seq1aligned := "ACGT"; seq2aligned := "A-GT";
       seq1indexed := [0; 1; 2; 3]; seq2indexed := [0; -2; 1; 2];
       score := 16 |} (-2) eq_refl eq_refl).
  discriminate.
Defined.

(** X12: exchanging the two sequences does not change the score. *)
Theorem score_symmetric (self r1 r2 : PairwiseAlignment) :
  doAlignment self = Ok r1 →
  doAlignment (setSequences self (seq2 self) (seq1 self)) = Ok r2 →
  getAlignmentScore r1 = getAlignmentScore r2.
Proof.
  intros H1 H2.
  apply doAlignment_alignment in H1 as [Hal1 Hopt1].
  apply doAlignment_alignment in H2 as [Hal2 Hopt2].
  simpl in Hal2.
  pose proof (alignment_swap _ self (setSequences self (seq2 self) (seq1 self))
                _ _ _ _ _ _ _ eq_refl eq_refl eq_refl Hal1) as S1.
  pose proof (alignment_swap _ (setSequences self (seq2 self) (seq1 self)) self
                _ _ _ _ _ _ _ eq_refl eq_refl eq_refl Hal2) as S2.
  specialize (Hopt2 _ _ _ _ _ _ _ _ S1 eq_refl eq_refl).
  specialize (Hopt1 _ _ _ _ _ _ _ _ S2 eq_refl eq_refl).
  unfold getAlignmentScore. lia.
Qed.

Lemma score_symmetric_witness :
  doAlignment (setSequences init "ACGT" "AGT") =
    Ok {| gapp := -6; seq1 := "ACGT"; seq2 := "AGT";
          seq1aligned := "ACGT"; seq2aligned := "A-GT";
          seq1indexed := [0; 1; 2; 3]; seq2indexed := [0; -2; 1; 2];
          score := 12 |} ∧
  doAlignment (setSequences (setSequences init "ACGT" "AGT") "AGT" "ACGT") =
    Ok {| gapp := -6; seq1 := "AGT"; seq2 := "ACGT";
          seq1aligned := "A-GT"; seq2aligned := "ACGT";
          seq1indexed := [0; -2; 1; 2]; seq2indexed := [0; 1; 2; 3];
          score := 12 |} ∧
  12 = 12.
Proof.
  split; [reflexivity|]. split; [reflexivity|].
  apply (score_symmetric (setSequences init "ACGT" "AGT")
    {| gapp := -6; seq1 := "ACGT"; seq2 := "AGT";
       seq1aligned := "ACGT"; seq2aligned := "A-GT";
       seq1indexed := [0; 1; 2; 3]; seq2indexed := [0; -2; 1; 2];
       score := 12 |}
    {| gapp := -6; seq1 := "AGT"; seq2 := "ACGT";
       seq1aligned := "A-GT"; seq2aligned := "ACGT";
       seq1indexed := [0; -2; 1; 2]; seq2indexed := [0; 1; 2; 3];
       score := 12 |} eq_refl eq_refl).
Defined.

(** ** Reading the result back *)

Lemma final_ok_ge (s : list ascii) (i : nat) (cs : list ascii) (ix : list Z) :
  final_ok s i cs ix → (i ≤ length ix)%nat ∧ (i ≤ length s)%nat.
Proof.
  induction 1 as [|i cs ix _ [IH1 IH2]|i c cs ix Hc%lookup_lt_Some _ [IH1 IH2]];
    rewrite ?length_app; simpl; lia.
Qed.

Lemma final_ok_ungap (s : list ascii) (i : nat) (cs : list ascii) (ix : list Z) :
  final_ok s i cs ix → "-"%char ∉ s →
  filter (fun a => a ≠ "-"%char) cs = take i s.
Proof.
  intros H Hs. induction H as [|i cs ix _ IH|i c cs ix Hc _ IH].
  - done.
  - rewrite filter_app, IH, filter_cons_False by (intros E; by apply E).
    by rewrite filter_nil, app_nil_r.
  - assert (c ≠ "-"%char) as Hne.
    { intros ->. apply Hs, list_elem_of_lookup. eauto. }
    rewrite filter_app, IH, filter_cons_True by done.
    by rewrite filter_nil, (take_S_r _ _ _ Hc).
Qed.

Lemma final_ok_range (s : list ascii) (i : nat) (cs : list ascii) (ix : list Z) :
  final_ok s i cs ix →
  ∀ c v, ix !! c = Some v → - (Z.of_nat i + 1) <= v < Z.of_nat i.
Proof.
  induction 1 as [|i cs ix _ IH|i a cs ix _ _ IH]; intros c v Hc.
  - by rewrite lookup_nil in Hc.
  - apply lookup_snoc_Some in Hc as [[_ Hc]|[_ <-]]; [eauto|lia].
  - apply lookup_snoc_Some in Hc as [[_ Hc]|[_ <-]]; [|lia].
    specialize (IH c v Hc). lia.
Qed.

(** The number of bases to the left of a column: the index itself under a
    base, and [k] under a gap with the sentinel [-(k+1)]. *)
Lemma final_ok_count (s : list ascii) (i : nat) (cs : list ascii) (ix : list Z) :
  final_ok s i cs ix →
  ∀ c v, ix !! c = Some v →
    Z.of_nat (length (filter (fun k => 0 <= k) (take c ix))) =
    if v <? 0 then - (v + 1) else v.
Proof.
  induction 1 as [|i cs ix H IH|i a cs ix _ H IH]; intros c v Hc.
  - by rewrite lookup_nil in Hc.
  - apply lookup_snoc_Some in Hc as [[Hlt Hc]|[-> <-]].
    + rewrite take_app_le by lia. eauto.
    + rewrite take_app_length, (final_ok_filter _ _ _ _ H), length_fmap, length_seq.
      destruct (Z.ltb_spec (- (Z.of_nat i + 1)) 0); lia.
  - apply lookup_snoc_Some in Hc as [[Hlt Hc]|[-> <-]].
    + rewrite take_app_le by lia. eauto.
    + rewrite take_app_length, (final_ok_filter _ _ _ _ H), length_fmap, length_seq.
      destruct (Z.ltb_spec (Z.of_nat i) 0); lia.
Qed.

(** An alignment with as many columns as symbols has no gap. *)
Lemma final_ok_full (s : list ascii) (i : nat) (cs : list ascii) (ix : list Z) :
  final_ok s i cs ix → length ix = i →
  ix = Z.of_nat <$> seq 0 i ∧ cs = take i s.
Proof.
  induction 1 as [|i cs ix H IH|i a cs ix Ha H IH]; intros Hlen.
  - done.
  - apply final_ok_ge in H as [H _]. rewrite length_app in Hlen. simpl in Hlen. lia.
  - rewrite length_app in Hlen. simpl in Hlen.
    destruct IH as [-> ->]; [lia|].
    by rewrite seq_S, fmap_app, (take_S_r _ _ _ Ha).
Qed.

Lemma chars_inj (s t : string) :
  list_ascii_of_string s = list_ascii_of_string t → s = t.
Proof.
  intros H. rewrite <- (string_of_list_ascii_of_string s), H.
  apply string_of_list_ascii_of_string.
Qed.

(** X13: without its gap characters an aligned sequence is the input sequence,
    provided the input does not itself contain the gap character, as no
    sequence over the alphabet of the table does. *)
Theorem ungap_aligned (self self' : PairwiseAlignment) :
  doAlignment self = Ok self' →
  ("-"%char ∉ list_ascii_of_string (seq1 self) → ungap (seq1aligned self') = seq1 self) ∧
  ("-"%char ∉ list_ascii_of_string (seq2 self) → ungap (seq2aligned self') = seq2 self) ∧
  (valid (seq1 self) = true → "-"%char ∉ list_ascii_of_string (seq1 self)) ∧
  (valid (seq2 self) = true → "-"%char ∉ list_ascii_of_string (seq2 self)).
Proof.
  intros H. pose proof (doAlignment_spec self) as Hs.
  destruct (all_good self); [|congruence].
  destruct Hs as (st & E & _ & _ & _ & F1 & F2 & _).
  rewrite H in E. injection E as <-.
  assert (Hv : ∀ s, valid s = true → "-"%char ∉ list_ascii_of_string s).
  { intros s Hs Hin. unfold valid in Hs. rewrite forallb_forall in Hs.
    apply list_elem_of_In, Hs in Hin. discriminate. }
  split; [|split; [|split; apply Hv]].
  - intros Hn. unfold ungap. rewrite (final_ok_ungap _ _ _ _ F1 Hn).
    rewrite take_ge by (unfold len; lia). apply string_of_list_ascii_of_string.
  - intros Hn. unfold ungap. rewrite (final_ok_ungap _ _ _ _ F2 Hn).
    rewrite take_ge by (unfold len; lia). apply string_of_list_ascii_of_string.
Qed.

Lemma ungap_aligned_witness :
  doAlignment (setSequences init "ACGT" "AGT") =
    Ok {| gapp := -6; seq1 := "ACGT"; seq2 := "AGT";
          seq1aligned := "ACGT"; seq2aligned := "A-GT";
          seq1indexed := [0; 1; 2; 3]; seq2indexed := [0; -2; 1; 2];
          score := 12 |} ∧
  valid "ACGT" = true ∧ valid "AGT" = true ∧
  ungap "ACGT" = "ACGT"%string ∧ ungap "A-GT" = "AGT"%string.
Proof.
  split; [reflexivity|]. split; [reflexivity|]. split; [reflexivity|].
  destruct (ungap_aligned (setSequences init "ACGT" "AGT")
    {| gapp := -6; seq1 := "ACGT"; seq2 := "AGT";
       seq1aligned := "ACGT"; seq2aligned := "A-GT";
       seq1indexed := [0; 1; 2; 3]; seq2indexed := [0; -2; 1; 2];
       score := 12 |} eq_refl) as (U1 & U2 & V1 & V2).
  split; [apply U1, V1; reflexivity|apply U2, V2; reflexivity].
Defined.

(** X14: every entry of the index list of a sequence of [len] symbols lies
    between [-(len+1)] and [len-1], and a negative entry sits under the gap
    character. *)
Theorem index_entries_range (self self' : PairwiseAlignment) :
  doAlignment self = Ok self' →
  (∀ c v, seq1indexed self' !! c = Some v →
     - (Z.of_nat (len (seq1 self)) + 1) <= v < Z.of_nat (len (seq1 self)) ∧
     (v < 0 → str_getitem (seq1aligned self') c = Ok "-"%char)) ∧
  (∀ c v, seq2indexed self' !! c = Some v →
     - (Z.of_nat (len (seq2 self)) + 1) <= v < Z.of_nat (len (seq2 self)) ∧
     (v < 0 → str_getitem (seq2aligned self') c = Ok "-"%char)).
Proof.
  intros H. pose proof (doAlignment_spec self) as Hs.
  destruct (all_good self); [|congruence].
  destruct Hs as (st & E & _ & _ & _ & F1 & F2 & _).
  rewrite H in E. injection E as <-.
  split; intros c v Hc; (split; [by eapply final_ok_range|]); intros Hv;
    apply getitem_Ok; by eapply final_ok_gap.
Qed.

Lemma index_entries_range_witness :
  doAlignment (setSequences init "ACGT" "AGT") =
    Ok {| gapp := -6; seq1 := "ACGT"; seq2 := "AGT";
          seq1aligned := "ACGT"; seq2aligned := "A-GT";
          seq1indexed := [0; 1; 2; 3]; seq2indexed := [0; -2; 1; 2];
          score := 12 |} ∧
  [0; -2; 1; 2] !! 1%nat = Some (-2) ∧
  (- (Z.of_nat (len "AGT") + 1) <= -2 < Z.of_nat (len "AGT") ∧
   (-2 < 0 → str_getitem "A-GT" 1 = Ok "-"%char)).
Proof.
  split; [reflexivity|]. split; [reflexivity|].
  destruct (index_entries_range (setSequences init "ACGT" "AGT")
    {| gapp := -6; seq1 := "ACGT"; seq2 := "AGT";
       seq1aligned := "ACGT"; seq2aligned := "A-GT";
       seq1indexed := [0; 1; 2; 3]; seq2indexed := [0; -2; 1; 2];
       score := 12 |} eq_refl) as [_ H2].
  apply (H2 1%nat (-2) eq_refl).
Defined.

(** X15: A sentinel counts the bases to its left: under a gap of sequence 1 with
    the sentinel [v], exactly [-(v+1)] symbols of sequence 1 sit in the
    columns before it; under a base of index [k] it is [k].  Likewise for
    sequence 2. *)
Theorem sentinel_counts_bases (self self' : PairwiseAlignment) :
  doAlignment self = Ok self' →
  (∀ c v, seq1indexed self' !! c = Some v →
     Z.of_nat (length (filter (fun k => 0 <= k) (take c (seq1indexed self')))) =
     if v <? 0 then - (v + 1) else v) ∧
  (∀ c v, seq2indexed self' !! c = Some v →
     Z.of_nat (length (filter (fun k => 0 <= k) (take c (seq2indexed self')))) =
     if v <? 0 then - (v + 1) else v).
Proof.
  intros H. pose proof (doAlignment_spec self) as Hs.
  destruct (all_good self); [|congruence].
  destruct Hs as (st & E & _ & _ & _ & F1 & F2 & _).
  rewrite H in E. injection E as <-.
  split; intros c v Hc; by eapply final_ok_count.
Qed.

Lemma sentinel_counts_bases_witness :
  doAlignment (setSequences init "AACC" "CCAA") =
    Ok {| gapp := -6; seq1 := "AACC"; seq2 := "CCAA";
          seq1aligned := "AACC--"; seq2aligned := "--CCAA";
          seq1indexed := [0; 1; 2; 3; -5; -5];
          seq2indexed := [-1; -1; 0; 1; 2; 3];
          score := 12 |} ∧
  [0; 1; 2; 3; -5; -5] !! 5%nat = Some (-5) ∧
  Z.of_nat (length (filter (fun k => 0 <= k) (take 5 [0; 1; 2; 3; -5; -5]))) =
    (if -5 <? 0 then - (-5 + 1) else -5).
Proof.
  split; [reflexivity|]. split; [reflexivity|].
  destruct (sentinel_counts_bases (setSequences init "AACC" "CCAA")
    {| gapp := -6; seq1 := "AACC"; seq2 := "CCAA";
       seq1aligned := "AACC--"; seq2aligned := "--CCAA";
       seq1indexed := [0; 1; 2; 3; -5; -5];
       seq2indexed := [-1; -1; 0; 1; 2; 3];
       score := 12 |} eq_refl) as [H1 _].
  apply (H1 5%nat (-5) eq_refl).
Defined.

(** ** An empty sequence on one side *)

Lemma alignment_zero_left (mk : nat → Z) (self : PairwiseAlignment) (i j : nat)
    (cs1 cs2 : list ascii) (x1 x2 : list Z) (t : Z) :
  alignment_of mk self i j cs1 cs2 x1 x2 t → i = 0%nat →
  cs1 = replicate j "-"%char ∧ x1 = replicate j (mk 0%nat) ∧
  cs2 = take j (list_ascii_of_string (seq2 self)) ∧
  x2 = Z.of_nat <$> seq 0 j ∧ t = 0.
Proof.
  induction 1 as [|i j a b r s cs1 cs2 x1 x2 t _ IH _ _ _ _
                  |i j b cs1 cs2 x1 x2 t _ IH _ Hb
                  |i j a cs1 cs2 x1 x2 t _ IH _ _]; intros Hi; try discriminate.
  - done.
  - subst i. destruct (IH eq_refl) as (-> & -> & -> & -> & ->).
    rewrite !replicate_S_end, seq_S, fmap_app, (take_S_r _ _ _ Hb).
    rewrite (proj1 (gap_cost_end (gapp self) (len (seq1 self)))). done.
Qed.

Lemma alignment_zero_right (mk : nat → Z) (self : PairwiseAlignment) (i j : nat)
    (cs1 cs2 : list ascii) (x1 x2 : list Z) (t : Z) :
  alignment_of mk self i j cs1 cs2 x1 x2 t → j = 0%nat →
  cs2 = replicate i "-"%char ∧ x2 = replicate i (mk 0%nat) ∧
  cs1 = take i (list_ascii_of_string (seq1 self)) ∧
  x1 = Z.of_nat <$> seq 0 i ∧ t = 0.
Proof.
  induction 1 as [|i j a b r s cs1 cs2 x1 x2 t _ IH _ _ _ _
                  |i j b cs1 cs2 x1 x2 t _ IH _ _
                  |i j a cs1 cs2 x1 x2 t _ IH _ Ha]; intros Hj; try discriminate.
  - done.
  - subst j. destruct (IH eq_refl) as (-> & -> & -> & -> & ->).
    rewrite !replicate_S_end, seq_S, fmap_app, (take_S_r _ _ _ Ha).
    rewrite (proj1 (gap_cost_end (gapp self) (len (seq2 self)))). done.
Qed.

Lemma doAlignment_returns (self : PairwiseAlignment) :
  len (seq1 self) = 0%nat ∨ len (seq2 self) = 0%nat ∨
  (valid (seq1 self) = true ∧ valid (seq2 self) = true) →
  ∃ self', doAlignment self = Ok self'.
Proof.
  intros H%all_good_iff. pose proof (doAlignment_spec self) as Hs.
  rewrite H in Hs. destruct Hs as (self' & E & _). eauto.
Qed.

(** X16: when sequence 1 is empty, [doAlignment] returns for any sequence 2,
    whatever its characters: sequence 2 is aligned unchanged against as many
    gap characters, every sentinel is [-1], and the score is 0. *)
Theorem empty_seq1 (self : PairwiseAlignment) :
  len (seq1 self) = 0%nat →
  ∃ self', doAlignment self = Ok self' ∧
    seq1aligned self' = string_of_list_ascii (replicate (len (seq2 self)) "-"%char) ∧
    seq2aligned self' = seq2 self ∧
    seq1indexed self' = replicate (len (seq2 self)) (-1) ∧
    seq2indexed self' = Z.of_nat <$> seq 0 (len (seq2 self)) ∧
    getAlignmentScore self' = 0.
Proof.
  intros Hn. destruct (doAlignment_returns self) as [self' H]; [auto|].
  exists self'. split; [done|].
  apply doAlignment_alignment in H as [Hal _].
  apply alignment_zero_left in Hal as (E1 & E2 & E3 & E4 & E5); [|done].
  rewrite take_ge in E3 by done. simpl in E2.
  split; [|split; [by apply chars_inj|done]].
  rewrite <- E1. symmetry. apply string_of_list_ascii_of_string.
Qed.

Lemma empty_seq1_witness :
  len (seq1 (setSequences init EmptyString "AX-")) = 0%nat ∧
  ∃ self', doAlignment (setSequences init EmptyString "AX-") = Ok self' ∧
    seq1aligned self' = string_of_list_ascii (replicate 3 "-"%char) ∧
    seq2aligned self' = "AX-"%string ∧
    seq1indexed self' = replicate 3 (-1) ∧
    seq2indexed self' = Z.of_nat <$> seq 0 3 ∧
    getAlignmentScore self' = 0.
Proof.
  split; [reflexivity|].
  apply (empty_seq1 (setSequences init EmptyString "AX-")). reflexivity.
Defined.

(** X17: when sequence 2 is empty, [doAlignment] returns for any sequence 1:
    sequence 1 is aligned unchanged against as many gap characters, every
    sentinel is [-1], and the score is 0. *)
Theorem empty_seq2 (self : PairwiseAlignment) :
  len (seq2 self) = 0%nat →
  ∃ self', doAlignment self = Ok self' ∧
    seq1aligned self' = seq1 self ∧
    seq2aligned self' = string_of_list_ascii (replicate (len (seq1 self)) "-"%char) ∧
    seq1indexed self' = Z.of_nat <$> seq 0 (len (seq1 self)) ∧
    seq2indexed self' = replicate (len (seq1 self)) (-1) ∧
    getAlignmentScore self' = 0.
Proof.
  intros Hm. destruct (doAlignment_returns self) as [self' H]; [auto|].
  exists self'. split; [done|].
  apply doAlignment_alignment in H as [Hal _].
  apply alignment_zero_right in Hal as (E1 & E2 & E3 & E4 & E5); [|done].
  rewrite take_ge in E3 by done. simpl in E2.
  split; [by apply chars_inj|]. split; [|done].
  rewrite <- E1. symmetry. apply string_of_list_ascii_of_string.
Qed.

Lemma empty_seq2_witness :
  len (seq2 (setSequences init "AX-" EmptyString)) = 0%nat ∧
  ∃ self', doAlignment (setSequences init "AX-" EmptyString) = Ok self' ∧
    seq1aligned self' = "AX-"%string ∧
    seq2aligned self' = string_of_list_ascii (replicate 3 "-"%char) ∧
    seq1indexed self' = Z.of_nat <$> seq 0 3 ∧
    seq2indexed self' = replicate 3 (-1) ∧
    getAlignmentScore self' = 0.
Proof.
  split; [reflexivity|].
  apply (empty_seq2 (setSequences init "AX-" EmptyString)). reflexivity.
Defined.

(** ** A sequence against itself *)

Lemma unambiguous_valid (s : string) : unambiguous s = true → valid s = true.
Proof.
  unfold unambiguous, valid. rewrite !forallb_forall. intros H c Hc.
  specialize (H c Hc). apply bool_decide_eq_true_1 in H. unfold bases in H.
  apply is_key_alphabet.
  unfold alphabet.
  repeat (apply elem_of_cons in H as [->|H];
          [repeat (first [apply list_elem_of_here|apply list_elem_of_further])|]).
  by apply elem_of_nil in H.
Qed.

Lemma score_of_base (c : ascii) : c ∈ bases → score_of c c = Ok 6.
Proof.
  intros H. unfold bases in H.
  repeat (apply elem_of_cons in H as [->|H]; [reflexivity|]).
  by apply elem_of_nil in H.
Qed.

(** The alignment without gaps of a sequence of unambiguous bases against
    itself scores 6 for every symbol. *)
Lemma diagonal_alignment (mk : nat → Z) (self : PairwiseAlignment) :
  seq2 self = seq1 self → unambiguous (seq1 self) = true →
  ∀ k, (k ≤ len (seq1 self))%nat →
    alignment_of mk self k k
      (take k (list_ascii_of_string (seq1 self))) (take k (list_ascii_of_string (seq1 self)))
      (Z.of_nat <$> seq 0 k) (Z.of_nat <$> seq 0 k) (6 * Z.of_nat k).
Proof.
  intros E U. induction k as [|k IH]; intros Hk.
  - constructor.
  - destruct (lookup_lt_is_Some_2 (list_ascii_of_string (seq1 self)) k) as [a Ha];
      [unfold len in Hk; lia|].
    assert (a ∈ bases) as Hab.
    { unfold unambiguous in U. rewrite forallb_forall in U.
      assert (In a (list_ascii_of_string (seq1 self))) as Hin
        by (apply list_elem_of_In, list_elem_of_lookup; eauto).
      specialize (U a Hin). by apply bool_decide_eq_true_1 in U. }
    apply score_of_base, score_of_Ok in Hab as (r & Hr & Hs).
    rewrite (take_S_r _ _ _ Ha), seq_S, fmap_app. simpl.
    eapply alignment_total_eq; [eapply al_pair; [apply IH; lia|done| |done..]|lia].
    by rewrite E.
Qed.

(** X18: with a gap penalty that is not positive, a sequence of unambiguous
    bases aligned with itself comes back unchanged and without gaps, and its
    score is 6 times its length. *)
Theorem self_alignment (self : PairwiseAlignment) :
  seq2 self = seq1 self → unambiguous (seq1 self) = true → getGapPenalty self <= 0 →
  ∃ self', doAlignment self = Ok self' ∧
    getAlignedSequences self' = (seq1 self, seq1 self) ∧
    seq1indexed self' = Z.of_nat <$> seq 0 (len (seq1 self)) ∧
    seq2indexed self' = Z.of_nat <$> seq 0 (len (seq1 self)) ∧
    getAlignmentScore self' = 6 * Z.of_nat (len (seq1 self)).
Proof.
  intros E U Hg.
  pose proof (unambiguous_valid _ U) as V.
  destruct (doAlignment_returns self) as [self' H]; [rewrite E; auto|].
  exists self'. split; [done|].
  pose proof (doAlignment_spec self) as Hs.
  destruct (all_good self); [|congruence].
  destruct Hs as (st & Est & _ & _ & _ & F1 & F2 & Hlen).
  rewrite H in Est. injection Est as <-.
  apply doAlignment_alignment in H as [Hal Hopt].
  pose proof (diagonal_alignment (fun _ => -1) self E U _ (le_n _)) as Hd.
  specialize (Hopt _ _ _ _ _ _ _ _ Hd eq_refl (f_equal len (eq_sym E))).
  pose proof (alignment_total_le _ _ _ _ _ _ _ _ _ Hg Hal) as Hle.
  apply alignment_shape in Hal as (_ & _ & L3 & B1 & B2 & _); [|intros k; lia].
  rewrite E in *.
  assert (length (seq1indexed self') = len (seq1 self)) as L1 by lia.
  apply final_ok_full in F1 as [-> X1]; [|done].
  apply final_ok_full in F2 as [-> X2]; [|lia].
  rewrite take_ge in X1, X2 by done.
  unfold getAlignedSequences, getAlignmentScore.
  split; [f_equal; by apply chars_inj|]. split; [done|]. split; [done|]. lia.
Qed.

Lemma self_alignment_witness :
  seq2 (setSequences init "GATTACA" "GATTACA") = seq1 (setSequences init "GATTACA" "GATTACA") ∧
  unambiguous (seq1 (setSequences init "GATTACA" "GATTACA")) = true ∧
  getGapPenalty (setSequences init "GATTACA" "GATTACA") <= 0 ∧
  ∃ self', doAlignment (setSequences init "GATTACA" "GATTACA") = Ok self' ∧
    getAlignedSequences self' = ("GATTACA", "GATTACA")%string ∧
    seq1indexed self' = Z.of_nat <$> seq 0 7 ∧
    seq2indexed self' = Z.of_nat <$> seq 0 7 ∧
    getAlignmentScore self' = 6 * Z.of_nat 7.
Proof.
  split; [reflexivity|]. split; [reflexivity|]. split; [discriminate|].
  apply (self_alignment (setSequences init "GATTACA" "GATTACA"));
    [reflexivity|reflexivity|discriminate].
Defined.
